(** * AEB object tracking and the robot navigator: a shallow embedding

    The development follows [aeb_object_tracking/src/aeb_tracker.cpp]
    (the translation unit that defines [AEBObjectTracker::Comparators]) and
    [robot_navigator/src/robot_navigator.cpp].

    C++ [float] is IEEE-754 binary32.  It is modelled exactly, with the
    executable specification of the Standard Library ([SpecFloat]) at
    precision 24 and maximal exponent 128, round-to-nearest-even.  NaN,
    signed zeros and both infinities are therefore part of the model. *)

From Stdlib Require Import ZArith Bool Ascii String List Lia.
From Stdlib Require Import Permutation Sorted.
From Stdlib Require Import Floats.SpecFloat.
Import ListNotations.

Local Open Scope Z_scope.

(* ================================================================== *)
(** * Binary32 arithmetic *)
(* ================================================================== *)

Module F32.

Definition prec : Z := 24.
Definition emax : Z := 128.

Definition float : Type := spec_float.

Definition add : float -> float -> float := SFadd prec emax.
Definition sub : float -> float -> float := SFsub prec emax.
Definition div : float -> float -> float := SFdiv prec emax.
Definition opp : float -> float := SFopp.
Definition abs : float -> float := SFabs.

(** The built-in comparisons; every comparison with a NaN is false. *)
Definition ltb : float -> float -> bool := SFltb.
Definition leb : float -> float -> bool := SFleb.
Definition gtb (x y : float) : bool := SFltb y x.

(** [std::isinf]: true on both infinities, false on NaN. *)
Definition isinf (x : float) : bool :=
  match x with
  | S754_infinity _ => true
  | _ => false
  end.

Definition isnan (x : float) : bool :=
  match x with
  | S754_nan => true
  | _ => false
  end.

(** A well-formed binary32 datum (canonical mantissa, exponent in range). *)
Definition valid (x : float) : bool := valid_binary prec emax x.

(** [std::numeric_limits<float>::infinity()]. *)
Definition infinity : float := S754_infinity false.
Definition neg_infinity : float := S754_infinity true.

(** An integer literal converted to [float] (rounded if it needs to be). *)
Definition of_Z (z : Z) : float := binary_normalize prec emax z 0 false.

(** The literals of the source. *)
Definition c0 : float := S754_zero false.                         (* 0.0f *)
Definition c1 : float := S754_finite false 8388608 (-23).         (* 1.0f *)
Definition c2 : float := S754_finite false 8388608 (-22).         (* 2.0f *)
Definition c10 : float := S754_finite false 10485760 (-20).       (* 10.0f *)
Definition c100 : float := S754_finite false 13107200 (-17).      (* 100.0f *)
Definition c0_1 : float := S754_finite false 13421773 (-27).      (* 0.1f = 0x1.99999ap-4 *)
Definition c0_001 : float := S754_finite false 8589935 (-33).     (* 0.001f = 0x1.0624dep-10 *)
Definition c0_01 : float := S754_finite false 10737418 (-30).     (* 0.01f = 0x1.47ae14p-7 *)

(** [std::max(a, b)] is [(a < b) ? b : a]. *)
Definition max (a b : float) : float := if ltb a b then b else a.

End F32.

Definition float : Type := F32.float.

(* ================================================================== *)
(** * DetectedObject *)
(* ================================================================== *)

(** The five private members of the class. [int] identifiers are kept as
    integers; no operation of this file does arithmetic on them. *)
Record DetectedObject : Type := {
  id_ : Z;
  distance_ : float;
  relative_velocity_ : float;
  collision_time_ : float;
  threat_level_ : float
}.

Definition getId (o : DetectedObject) : Z := id_ o.
Definition getDistance (o : DetectedObject) : float := distance_ o.
Definition getRelativeVelocity (o : DetectedObject) : float := relative_velocity_ o.
Definition getCollisionTime (o : DetectedObject) : float := collision_time_ o.
Definition getThreatLevel (o : DetectedObject) : float := threat_level_ o.

(** [DetectedObject::calculateThreatLevel], as a function of the two members
    it reads. *)
Definition calculateThreatLevel (distance collision_time : float) : float :=
  if F32.gtb collision_time F32.c10 then F32.c0
  else if F32.ltb collision_time F32.c1 then F32.c1
  else
  let distance_factor := F32.max F32.c0 (F32.sub F32.c1 (F32.div distance F32.c100)) in
  let time_factor := F32.max F32.c0 (F32.sub F32.c1 (F32.div collision_time F32.c10)) in
    F32.div (F32.add distance_factor time_factor) F32.c2.

(** The time-to-collision computed by the three-argument constructor. *)
Definition timeToCollision (dist rel_vel : float) : float :=
  if F32.ltb rel_vel (F32.opp F32.c0_1)
  then F32.div dist (F32.opp rel_vel)
  else F32.infinity.

(** [DetectedObject::DetectedObject(int, float, float)]. *)
Definition mkDetectedObject (obj_id : Z) (dist rel_vel : float) : DetectedObject :=
  let ttc := timeToCollision dist rel_vel in
  {| id_ := obj_id;
     distance_ := dist;
     relative_velocity_ := rel_vel;
     collision_time_ := ttc;
     threat_level_ := calculateThreatLevel dist ttc |}.

(** [DetectedObject::DetectedObject()] delegates to [(0, 0.0f, 0.0f)]. *)
Definition defaultDetectedObject : DetectedObject :=
  mkDetectedObject 0 F32.c0 F32.c0.

(** [DetectedObject::operator<]. *)
Definition DetectedObject_lt (this other : DetectedObject) : bool :=
  F32.ltb (collision_time_ this) (collision_time_ other).

(** [DetectedObject::operator==]. *)
Definition DetectedObject_eq (this other : DetectedObject) : bool :=
  Z.eqb (id_ this) (id_ other).

(** An object built from integer-valued readings, as the demonstrations and
    the unit tests do. *)
Definition objZ (obj_id d v : Z) : DetectedObject :=
  mkDetectedObject obj_id (F32.of_Z d) (F32.of_Z v).

(* ================================================================== *)
(** * AEBObjectTracker::Comparators *)
(* ================================================================== *)

Module Comparators.

Definition byCollisionTime (first_object second_object : DetectedObject) : bool :=
  let first_collision_time := getCollisionTime first_object in
  let second_collision_time := getCollisionTime second_object in
  if F32.isinf first_collision_time && F32.isinf second_collision_time
  then F32.ltb (getDistance first_object) (getDistance second_object)
  else if F32.isinf first_collision_time then false
  else if F32.isinf second_collision_time then true
  else F32.ltb first_collision_time second_collision_time.

Definition kThreatLevelFactor : float := F32.c0_001.

Definition byThreatLevel (first_object second_object : DetectedObject) : bool :=
  if F32.ltb (F32.abs (F32.sub (getThreatLevel first_object)
                               (getThreatLevel second_object)))
             kThreatLevelFactor
  then F32.ltb (getDistance first_object) (getDistance second_object)
  else F32.gtb (getThreatLevel first_object) (getThreatLevel second_object).

End Comparators.

(** The private closure [multiCriteriaComparator] of the tracker. *)
Definition multiCriteriaComparator (first_object second_object : DetectedObject) : bool :=
  let threat_epsilon := F32.c0_01 in
  let time_epsilon := F32.c0_1 in
  if F32.gtb (F32.abs (F32.sub (getThreatLevel first_object)
                               (getThreatLevel second_object)))
             threat_epsilon
  then F32.gtb (getThreatLevel first_object) (getThreatLevel second_object)
  else
    let first_collision_time := getCollisionTime first_object in
    let second_collision_time := getCollisionTime second_object in
    if negb (F32.isinf first_collision_time) &&
       negb (F32.isinf second_collision_time) &&
       F32.gtb (F32.abs (F32.sub first_collision_time second_collision_time))
               time_epsilon
    then F32.ltb first_collision_time second_collision_time
    else F32.ltb (getDistance first_object) (getDistance second_object).

(* ================================================================== *)
(** * The contract of [std::sort] and [std::partial_sort] *)
(* ================================================================== *)

(** The tracker calls the sorting algorithms of the standard library.  Their
    code is not part of the repository; the language standard fixes only
    what a call may leave behind, and neither algorithm is stable.  They are
    modelled by that contract, as relations between the range before and
    after the call. *)

Section StdAlgorithms.

Context {A : Type}.
Variable comp : A -> A -> bool.

(** Equivalence induced by a comparator: neither is ordered before the other. *)
Definition equiv_wrt (a b : A) : Prop := comp a b = false /\ comp b a = false.

(** The requirement on a comparator ([alg.sorting]): a strict weak ordering,
    here asked of the elements of the range that is sorted. *)
Record strict_weak_order_on (l : list A) : Prop := {
  swo_irrefl : forall a, In a l -> comp a a = false;
  swo_trans : forall a b c, In a l -> In b l -> In c l ->
      comp a b = true -> comp b c = true -> comp a c = true;
  swo_equiv_trans : forall a b c, In a l -> In b l -> In c l ->
      equiv_wrt a b -> equiv_wrt b c -> equiv_wrt a c
}.

(** A range is sorted with respect to [comp] when no later element is
    ordered before an earlier one. *)
Definition sorted_wrt (l : list A) : Prop :=
  StronglySorted (fun x y => comp y x = false) l.

Fixpoint sorted_wrtb (l : list A) : bool :=
  match l with
  | [] => true
  | x :: t => forallb (fun y => negb (comp y x)) t && sorted_wrtb t
  end.

(** [std::sort(first, last, comp)]: the range is rearranged and ends sorted.
    This is what the library promises when [comp] is a strict weak ordering
    on the range, and only then: a statement about the results of a call
    describes the program on the ranges where [comp] is one. *)
Definition std_sort (l l' : list A) : Prop :=
  Permutation l l' /\ sorted_wrt l'.

(** [std::partial_sort(first, first + n, last, comp)]: the range is
    rearranged; its first [n] places hold, sorted, elements that no element
    of the remainder is ordered before; the remainder is in any order.  As
    for [std_sort], this is the promise for a strict weak ordering [comp]. *)
Definition std_partial_sort (n : nat) (l l' : list A) : Prop :=
  Permutation l l' /\
  sorted_wrt (firstn n l') /\
  (forall x y, In x (firstn n l') -> In y (skipn n l') -> comp y x = false).

(** A reference implementation: straight insertion, which is what the usual
    library runs on short ranges. *)
Fixpoint insert_sorted (x : A) (l : list A) : list A :=
  match l with
  | [] => [x]
  | y :: t => if comp x y then x :: y :: t else y :: insert_sorted x t
  end.

Fixpoint insertion_sort (l : list A) : list A :=
  match l with
  | [] => []
  | x :: t => insert_sorted x (insertion_sort t)
  end.

(** [std::copy_if] into a [std::back_inserter]. *)
Definition copy_if (pred : A -> bool) (l : list A) : list A :=
  fold_left (fun out x => if pred x then out ++ [x] else out) l [].

(** [std::any_of]: stops at the first element that satisfies [pred]. *)
Fixpoint any_of (pred : A -> bool) (l : list A) : bool :=
  match l with
  | [] => false
  | x :: t => if pred x then true else any_of pred t
  end.

(** [std::find_if], as the offset of the returned iterator from [begin()];
    the length of the range stands for [end()]. *)
Fixpoint find_if (pred : A -> bool) (l : list A) : nat :=
  match l with
  | [] => O
  | x :: t => if pred x then O else S (find_if pred t)
  end.

(** Number of elements of [l] that satisfy [p]. *)
Definition count (p : A -> bool) (l : list A) : nat := length (filter p l).

(** [x] sits at offset [i] of [l], nothing before it is ordered after it and
    nothing after it is ordered before it. *)
Definition at_rank (l : list A) (i : nat) (x : A) : Prop :=
  exists pre post,
    l = pre ++ x :: post /\ length pre = i /\
    Forall (fun w => comp x w = false) pre /\
    Forall (fun w => comp w x = false) post.

End StdAlgorithms.

(* ================================================================== *)
(** * AEBObjectTracker *)
(* ================================================================== *)

Record AEBObjectTracker : Type := { objects_ : list DetectedObject }.

Definition kMaxCriticalObjects : nat := 5.

Definition addObject (object : DetectedObject) (t : AEBObjectTracker) : AEBObjectTracker :=
  {| objects_ := objects_ t ++ [object] |}.

Definition clear (t : AEBObjectTracker) : AEBObjectTracker := {| objects_ := [] |}.

Definition getObjects (t : AEBObjectTracker) : list DetectedObject := objects_ t.

Definition size (t : AEBObjectTracker) : nat := length (objects_ t).

Definition empty (t : AEBObjectTracker) : bool :=
  match objects_ t with
  | [] => true
  | _ :: _ => false
  end.

(** The mutating members are relations between the tracker before and after
    the call. *)
Definition sortByCollisionTime (t t' : AEBObjectTracker) : Prop :=
  std_sort Comparators.byCollisionTime (objects_ t) (objects_ t').

(** As written in the translation unit that defines [Comparators]: the call
    passes [Comparators::byCollisionTime]. *)
Definition sortByThreatLevel (t t' : AEBObjectTracker) : Prop :=
  std_sort Comparators.byCollisionTime (objects_ t) (objects_ t').

(** The definition of the same member in the first half of the file, where
    the comparators are closures of the class: it passes
    [threatLevelComparator], whose body is that of
    [Comparators::byThreatLevel]. *)
Definition sortByThreatLevel_closure (t t' : AEBObjectTracker) : Prop :=
  std_sort Comparators.byThreatLevel (objects_ t) (objects_ t').

Definition sortMultiCriteria (t t' : AEBObjectTracker) : Prop :=
  std_sort multiCriteriaComparator (objects_ t) (objects_ t').

Definition partialSortCriticalObjects (max_objects : nat) (t t' : AEBObjectTracker) : Prop :=
  if empty t then t' = t
  else
    let num_to_sort := Nat.min max_objects (length (objects_ t)) in
    std_partial_sort Comparators.byCollisionTime num_to_sort (objects_ t) (objects_ t').

Definition getCriticalObjects (max_objects : nat) (t : AEBObjectTracker) : list DetectedObject :=
  let num_objects := Nat.min max_objects (length (objects_ t)) in
  firstn num_objects (objects_ t).

(** The lambda shared by [getObjectsWithinTimeThreshold] and
    [hasCriticalObjects]. *)
Definition withinTimeThreshold (threshold_seconds : float) (obj : DetectedObject) : bool :=
  negb (F32.isinf (getCollisionTime obj)) &&
  F32.leb (getCollisionTime obj) threshold_seconds.

Definition getObjectsWithinTimeThreshold (threshold_seconds : float) (t : AEBObjectTracker)
  : list DetectedObject :=
  copy_if (withinTimeThreshold threshold_seconds) (objects_ t).

Definition findObjectById (id : Z) (t : AEBObjectTracker) : nat :=
  find_if (fun obj => Z.eqb (getId obj) id) (objects_ t).

Definition hasCriticalObjects (threshold_seconds : float) (t : AEBObjectTracker) : bool :=
  any_of (withinTimeThreshold threshold_seconds) (objects_ t).

(** The key [Comparators::byCollisionTime] orders by: the distance for an
    object whose collision time is infinite, the collision time otherwise. *)
Definition collisionKey (o : DetectedObject) : float :=
  if F32.isinf (getCollisionTime o) then getDistance o else getCollisionTime o.

(** Objects [Comparators::byCollisionTime] can order: the key is a number. *)
Definition comparableByCollisionTime (o : DetectedObject) : Prop :=
  F32.isnan (collisionKey o) = false.

(** No two stored objects that differ are equivalent for the comparator. *)
Definition no_ties (comp : DetectedObject -> DetectedObject -> bool)
  (l : list DetectedObject) : Prop :=
  forall a b, In a l -> In b l -> equiv_wrt comp a b -> a = b.

(* ================================================================== *)
(** * Robot navigator: instruction parsing *)
(* ================================================================== *)

Module RobotNav.

Inductive Turn : Type := kLeft | kRight.

(** [steps_] is a [std::uint32_t]: an integer in [0, 2^32). *)
Record Instruction : Type := { turn_ : Turn; steps_ : Z }.

(** The two exceptions [std::stoi] can raise. *)
Inductive exception : Type := invalid_argument | out_of_range.

(** A computation that returns a value or leaves by an exception. *)
Inductive result (T : Type) : Type :=
| Ok (v : T)
| Throw (e : exception).

Arguments Ok {T} v.
Arguments Throw {T} e.

Definition bind {T U : Type} (r : result T) (k : T -> result U) : result U :=
  match r with
  | Ok v => k v
  | Throw e => Throw e
  end.

Definition code (c : ascii) : Z := Z.of_N (N_of_ascii c).

(** [isspace] in the "C" locale: space, and the controls 9 to 13. *)
Definition isspace (c : ascii) : bool :=
  (code c =? 32) || ((9 <=? code c) && (code c <=? 13)).

Definition isdigit (c : ascii) : bool := (48 <=? code c) && (code c <=? 57).

Fixpoint skip_space (s : string) : string :=
  match s with
  | String c r => if isspace c then skip_space r else s
  | EmptyString => s
  end.

(** The longest prefix of decimal digits, read as a number; [None] when the
    text does not start with a digit. *)
Fixpoint read_digits (s : string) (acc : option Z) : option Z :=
  match s with
  | String c r =>
      if isdigit c
      then read_digits r (Some (10 * match acc with Some a => a | None => 0 end
                                + (code c - 48)))
      else acc
  | EmptyString => acc
  end.

Definition INT_MIN : Z := - 2 ^ 31.
Definition INT_MAX : Z := 2 ^ 31 - 1.

(** [std::stoi(str)]: leading white space, an optional sign, decimal digits;
    whatever follows the digits is ignored. *)
Definition stoi (str : string) : result Z :=
  let s := skip_space str in
  let '(negative, digits) :=
    match s with
    | String "-"%char r => (true, r)
    | String "+"%char r => (false, r)
    | _ => (false, s)
    end in
  match read_digits digits None with
  | None => Throw invalid_argument
  | Some n =>
      let v := if negative then - n else n in
      if (INT_MIN <=? v) && (v <=? INT_MAX) then Ok v else Throw out_of_range
  end.

(** [static_cast<std::uint32_t>] of an [int]. *)
Definition to_uint32 (v : Z) : Z := v mod 2 ^ 32.

(** The body shared by the two places that turn a non-empty token into an
    instruction: [current_token[0]] and [current_token.substr(1)].  Both
    places are guarded by [!current_token.empty()]; on an empty string
    [substr(1)] itself would throw [std::out_of_range]. *)
Definition parseToken (current_token : string) : result Instruction :=
  match current_token with
  | EmptyString => Throw out_of_range
  | String c0 rest =>
      let turn := if Ascii.eqb c0 "L"%char then kLeft else kRight in
      bind (stoi rest) (fun steps =>
        Ok {| turn_ := turn; steps_ := to_uint32 steps |})
  end.

Definition is_empty (s : string) : bool :=
  match s with
  | EmptyString => true
  | String _ _ => false
  end.

(** The loop over the characters of [input], with the two locals it
    updates. *)
Fixpoint parseLoop (input : string) (instructions : list Instruction)
  (current_token : string) : result (list Instruction) :=
  match input with
  | String c rest =>
      if Ascii.eqb c ","%char then
        if negb (is_empty current_token) then
          bind (parseToken current_token) (fun i =>
            parseLoop rest (instructions ++ [i]) EmptyString)
        else parseLoop rest instructions current_token
      else if negb (Ascii.eqb c " "%char) then
        parseLoop rest instructions (current_token ++ String c EmptyString)%string
      else parseLoop rest instructions current_token
  | EmptyString =>
      if negb (is_empty current_token) then
        bind (parseToken current_token) (fun i => Ok (instructions ++ [i]))
      else Ok instructions
  end.

Definition parseInstructions (input : string) : result (list Instruction) :=
  parseLoop input [] EmptyString.

(** ** The token view of the input *)

Fixpoint strip_spaces (s : string) : string :=
  match s with
  | String c r => if Ascii.eqb c " "%char then strip_spaces r else String c (strip_spaces r)
  | EmptyString => EmptyString
  end.

(** The pieces of [s] between commas. *)
Fixpoint split_commas (s : string) : list string :=
  match s with
  | EmptyString => [EmptyString]
  | String c r =>
      if Ascii.eqb c ","%char then EmptyString :: split_commas r
      else match split_commas r with
           | t :: ts => String c t :: ts
           | [] => [String c EmptyString]
           end
  end.

(** The tokens of an input: the comma-separated pieces, spaces removed. *)
Definition tokens (input : string) : list string :=
  split_commas (strip_spaces input).

(** Tokens converted left to right; empty ones are passed over and the first
    conversion that throws ends the run. *)
Fixpoint parseTokens (toks : list string) : result (list Instruction) :=
  match toks with
  | [] => Ok []
  | t :: ts =>
      if is_empty t then parseTokens ts
      else bind (parseToken t) (fun i =>
             bind (parseTokens ts) (fun more => Ok (i :: more)))
  end.

(** A token the conversion rejects. *)
Definition rejected (t : string) : Prop :=
  match t with
  | EmptyString => False
  | String _ rest => exists e, stoi rest = Throw e
  end.

Definition throws {T : Type} (r : result T) : Prop := exists e, r = Throw e.

(** The first piece of a split, extended on the left by the characters
    already collected in [current_token]. *)
Definition glue (current_token : string) (pieces : list string) : list string :=
  match pieces with
  | t :: ts => (current_token ++ t)%string :: ts
  | [] => [current_token]
  end.

(** The token grammar of the interface: [L] or [R], then a non-negative
    decimal integer. *)
Definition wellFormedToken (t : string) : bool :=
  match t with
  | String c rest =>
      (Ascii.eqb c "L"%char || Ascii.eqb c "R"%char) && negb (is_empty rest) &&
      forallb isdigit (list_ascii_of_string rest)
  | EmptyString => false
  end.

(** ** Positions, directions and the robot *)

Definition kGridSize : Z := 10.
Definition kStartX : Z := 5.
Definition kStartY : Z := 5.

(** The enumerators carry the values 0 to 3, clockwise from north. *)
Inductive Direction : Type := kNorth | kEast | kSouth | kWest.

(** Coordinates are [std::int32_t].  They are kept as integers; signed
    overflow has no defined result, and the statements below are about
    coordinates far from the ends of the type. *)
Record Position : Type := { x_ : Z; y_ : Z }.

(** [Position()] is [Position(kStartX, kStartY)]. *)
Definition defaultPosition : Position := {| x_ := kStartX; y_ := kStartY |}.

(** [Position::operator==] and [operator!=]. *)
Definition Position_eqb (this other : Position) : bool :=
  (x_ this =? x_ other) && (y_ this =? y_ other).

Definition Position_neqb (this other : Position) : bool :=
  negb (Position_eqb this other).

(** [Position::getManhattanDistance]. *)
Definition Position_getManhattanDistance (from to : Position) : Z :=
  let dx := Z.abs (x_ to - x_ from) in
  let dy := Z.abs (y_ to - y_ from) in
  to_uint32 (dx + dy).

(** [static_cast<std::uint8_t>] of a direction, and the cast back. *)
Definition direction_index (d : Direction) : Z :=
  match d with
  | kNorth => 0
  | kEast => 1
  | kSouth => 2
  | kWest => 3
  end.

Definition direction_of_index (n : Z) : Direction :=
  match n with
  | 0 => kNorth
  | 1 => kEast
  | 2 => kSouth
  | _ => kWest
  end.

Definition kDeltaX (i : Z) : Z := nth (Z.to_nat i) [0; 1; 0; -1] 0.
Definition kDeltaY (i : Z) : Z := nth (Z.to_nat i) [-1; 0; 1; 0] 0.

(** [std::clamp(v, lo, hi)] is [(v < lo) ? lo : (hi < v) ? hi : v]. *)
Definition clamp (v lo hi : Z) : Z :=
  if v <? lo then lo else if hi <? v then hi else v.

Record Robot : Type := {
  position_ : Position;
  direction_ : Direction;
  path_history_ : list Position
}.

(** [Robot::Robot(start_pos, start_dir)] records the start in the history. *)
Definition mkRobot (start_pos : Position) (start_dir : Direction) : Robot :=
  {| position_ := start_pos; direction_ := start_dir; path_history_ := [start_pos] |}.

(** [Robot()] starts at the default position facing north. *)
Definition defaultRobot : Robot := mkRobot defaultPosition kNorth.

Definition calculateNewDirection (r : Robot) (turn : Turn) : Direction :=
  let current := direction_index (direction_ r) in
  let current :=
    match turn with
    | kRight => (current + 1) mod 4
    | kLeft => (current + 3) mod 4
    end in
  direction_of_index current.

Definition calculateNewPosition (r : Robot) : Position :=
  let dir_index := direction_index (direction_ r) in
  let new_x := x_ (position_ r) + kDeltaX dir_index in
  let new_y := y_ (position_ r) + kDeltaY dir_index in
  {| x_ := clamp new_x 0 (kGridSize - 1); y_ := clamp new_y 0 (kGridSize - 1) |}.

(** The loop of [executeInstruction], with the number of iterations left. *)
Fixpoint moveForward (steps : nat) (r : Robot) : Robot :=
  match steps with
  | O => r
  | S n =>
      let p := calculateNewPosition r in
      moveForward n {| position_ := p;
                       direction_ := direction_ r;
                       path_history_ := path_history_ r ++ [p] |}
  end.

Definition executeInstruction (instruction : Instruction) (r : Robot) : Robot :=
  moveForward (Z.to_nat (steps_ instruction))
    {| position_ := position_ r;
       direction_ := calculateNewDirection r (turn_ instruction);
       path_history_ := path_history_ r |}.

Definition executeInstructions (instructions : list Instruction) (r : Robot) : Robot :=
  fold_left (fun r' instruction => executeInstruction instruction r') instructions r.

Definition getCurrentPosition (r : Robot) : Position := position_ r.
Definition getCurrentDirection (r : Robot) : Direction := direction_ r.
Definition getPathHistory (r : Robot) : list Position := path_history_ r.

Definition getStartPosition (r : Robot) : Position :=
  match path_history_ r with
  | [] => defaultPosition
  | p :: _ => p
  end.

(** [static_cast<std::uint32_t>(path_history_.size()) - 1U]. *)
Definition getActualSteps (r : Robot) : Z :=
  to_uint32 (to_uint32 (Z.of_nat (List.length (path_history_ r))) - 1).

(** [Robot::getManhattanDistance]: from the start to the current position. *)
Definition Robot_getManhattanDistance (r : Robot) : Z :=
  match path_history_ r with
  | [] => 0
  | p :: _ => Position_getManhattanDistance p (position_ r)
  end.

(** A position of the grid. *)
Definition inGrid (p : Position) : Prop :=
  0 <= x_ p < kGridSize /\ 0 <= y_ p < kGridSize.

(** The coordinates are [std::int32_t] in the code.  A position other than
    at the ends of that range: adding a delta to its coordinates, as
    [calculateNewPosition] does, stays within the range. *)
Definition representable (p : Position) : Prop :=
  INT_MIN < x_ p < INT_MAX /\ INT_MIN < y_ p < INT_MAX.

(** Two positions that are equal or next to each other along one axis. *)
Definition oneStepApart (p q : Position) : Prop :=
  Z.abs (x_ q - x_ p) + Z.abs (y_ q - y_ p) <= 1.

(** Consecutive elements of a path are at most one step apart. *)
Fixpoint stepwise (path : list Position) : Prop :=
  match path with
  | p :: (q :: _) as rest => oneStepApart p q /\ stepwise rest
  | _ => True
  end.

(** What every robot built by the constructor and driven by
    [executeInstruction] satisfies: the history ends with the current
    position. *)
Definition historyEndsAtPosition (r : Robot) : Prop :=
  exists before, path_history_ r = before ++ [position_ r].

(** ** Printing instructions *)

Definition digit_char (d : Z) : ascii := ascii_of_N (Z.to_N (48 + d)).

(** The decimal digits of a non-negative number, most significant first, in
    front of [acc]; [fuel] bounds the number of digits. *)
Fixpoint to_digits (fuel : nat) (n : Z) (acc : string) : string :=
  match fuel with
  | O => acc
  | S f =>
      let acc' := String (digit_char (n mod 10)) acc in
      if n <? 10 then acc' else to_digits f (n / 10) acc'
  end.

(** [std::to_string] of a [std::uint32_t]: at most ten digits. *)
Definition to_string (n : Z) : string := to_digits 10 n EmptyString.

(** [Instruction::toString]. *)
Definition Instruction_toString (i : Instruction) : string :=
  let turn_str :=
    match turn_ i with
    | kLeft => "L"%string
    | kRight => "R"%string
    end in
  (turn_str ++ to_string (steps_ i))%string.

(** The instruction line written by [printAnalysis]: the instructions
    separated by a comma and a space. *)
Fixpoint printInstructions (instructions : list Instruction) : string :=
  match instructions with
  | [] => EmptyString
  | [i] => Instruction_toString i
  | i :: rest => (Instruction_toString i ++ ", " ++ printInstructions rest)%string
  end.

(** The number a string of digits denotes after the digits [a]. *)
Fixpoint digits_value (s : string) (a : Z) : Z :=
  match s with
  | String c r => digits_value r (10 * a + (code c - 48))
  | EmptyString => a
  end.

Fixpoint all_digits (s : string) : bool :=
  match s with
  | String c r => isdigit c && all_digits r
  | EmptyString => true
  end.

(** An instruction as the class can hold it and [std::stoi] can read it
    back. *)
Definition readable (i : Instruction) : Prop := 0 <= steps_ i <= INT_MAX.

End RobotNav.

(* ================================================================== *)
(** * Auxiliary notions used by the proofs *)
(* ================================================================== *)

(** The place of a number among the binary32 values, as a triple compared
    lexicographically: class (negative infinity, negative, zero, positive,
    positive infinity), then exponent, then mantissa.  Both zeros share a
    place.  NaN has no place; it is sent to the place of zero and every
    statement about places excludes it. *)
Definition rank (x : float) : Z * Z * Z :=
  match x with
  | S754_infinity true => (-2, 0, 0)
  | S754_finite true m e => (-1, - e, - Zpos m)
  | S754_zero _ => (0, 0, 0)
  | S754_nan => (0, 0, 0)
  | S754_finite false m e => (1, e, Zpos m)
  | S754_infinity false => (2, 0, 0)
  end.

Definition rank_lt (p q : Z * Z * Z) : Prop :=
  let '(a, b, c) := p in
  let '(a', b', c') := q in
  a < a' \/ (a = a' /\ (b < b' \/ (b = b' /\ c < c'))).

(** The place [Comparators::byCollisionTime] gives an object: objects with
    an infinite collision time come after all others. *)
Definition collisionRank (o : DetectedObject) : Z * (Z * Z * Z) :=
  (if F32.isinf (getCollisionTime o) then 1 else 0, rank (collisionKey o)).

(** Within [0, 1]. *)
Definition in_unit_range (x : float) : Prop :=
  F32.leb F32.c0 x = true /\ F32.leb x F32.c1 = true.

(** The threat level as the specification words it. *)
Definition threatLevelSpec (distance collisionTime : float) : float :=
  if F32.gtb collisionTime F32.c10 then F32.c0
  else if F32.ltb collisionTime F32.c1 then F32.c1
  else F32.div (F32.add (F32.max F32.c0 (F32.sub F32.c1 (F32.div distance F32.c100)))
                        (F32.max F32.c0 (F32.sub F32.c1 (F32.div collisionTime F32.c10))))
               F32.c2.

(** Neither a NaN nor an infinity. *)
Definition finiteFloat (x : float) : bool :=
  match x with
  | S754_zero _ | S754_finite _ _ _ => true
  | _ => false
  end.

(** Zero or positive, and finite. *)
Definition finiteNonNegative (x : float) : bool :=
  match x with
  | S754_zero _ | S754_finite false _ _ => true
  | _ => false
  end.

(** A collision time that is a number other than negative infinity: what
    the constructor yields for every finite non-negative distance. *)
Definition ordinaryCollisionTime (o : DetectedObject) : Prop :=
  F32.isnan (getCollisionTime o) = false /\
  getCollisionTime o <> F32.neg_infinity.

(** [t'] holds the objects of [t] in some order. *)
Definition reordered (t t' : AEBObjectTracker) : Prop :=
  Permutation (objects_ t) (objects_ t').

(** Three objects that [multiCriteriaComparator] orders in a cycle: equal
    threat levels, collision times 0.5 s, 0.4 s and 0.375 s. *)
Definition multiCriteriaCycle : DetectedObject * DetectedObject * DetectedObject :=
  (objZ 1 1 (-2), objZ 2 2 (-5), objZ 3 3 (-8)).

(** What a shift has dropped: the round and sticky bits together. *)
Definition inexact (mrs : shr_record) : bool := shr_r mrs || shr_s mrs.

(** The room a location leaves above the truncated mantissa: the exact value
    lies in [[m, m + slack l]] units of the last place. *)
Definition slack (l : location) : Z :=
  match l with
  | loc_Exact => 0
  | loc_Inexact _ => 1
  end.

(** A float that is [+0] or positive and at most [2 ^ k], read off its
    mantissa and exponent. *)
Definition below_pow2 (k : Z) (r : float) : Prop :=
  match r with
  | S754_zero false => True
  | S754_finite false m e => e <= k - 23 /\ Zpos m <= 2 ^ (k - e)
  | _ => False
  end.

(** A float that is not a NaN and carries the sign bit [s]. *)
Definition has_sign (s : bool) (r : float) : Prop :=
  match r with
  | S754_zero s' | S754_infinity s' | S754_finite s' _ _ => s' = s
  | S754_nan => False
  end.

(* ================================================================== *)
(** * Scenarios *)
(* ================================================================== *)

(** The five objects of the basic sorting demonstration, with the order a
    full sort must produce and one order a partial sort of the first three
    may produce. *)
Definition scenario1 : AEBObjectTracker :=
  {| objects_ := [objZ 1 50 (-10); objZ 2 20 (-20); objZ 3 100 5;
                  objZ 4 30 (-15); objZ 5 80 (-8)] |}.

Definition scenario1_sorted : AEBObjectTracker :=
  {| objects_ := [objZ 2 20 (-20); objZ 4 30 (-15); objZ 1 50 (-10);
                  objZ 5 80 (-8); objZ 3 100 5] |}.

Definition scenario1_top3 : AEBObjectTracker :=
  {| objects_ := [objZ 2 20 (-20); objZ 4 30 (-15); objZ 1 50 (-10);
                  objZ 3 100 5; objZ 5 80 (-8)] |}.

(** Two objects with the same collision time (2 s) behind a slower one:
    insertion leaves the tied pair in the order 2, 3; a heap-based selection
    of the first two leaves it in the order 3, 2. *)
Definition tied : AEBObjectTracker :=
  {| objects_ := [objZ 1 30 (-3); objZ 2 10 (-5); objZ 3 20 (-10)] |}.

Definition tied_sorted : AEBObjectTracker :=
  {| objects_ := [objZ 2 10 (-5); objZ 3 20 (-10); objZ 1 30 (-3)] |}.

Definition tied_top2 : AEBObjectTracker :=
  {| objects_ := [objZ 3 20 (-10); objZ 2 10 (-5); objZ 1 30 (-3)] |}.

(** A near, slow object (collision in 5 s, threat 0.7) and a far, fast one
    (collision in 2 s, threat 0.4): the two orders disagree. *)
Definition crossing : AEBObjectTracker :=
  {| objects_ := [objZ 2 10 (-2); objZ 1 100 (-50)] |}.

(** A large negative distance closing at half a metre per second: the
    quotient overflows and the collision time is negative infinity. *)
Definition overflowing : DetectedObject :=
  mkDetectedObject 1 (F32.of_Z (- 3 * 10 ^ 38)) (S754_finite true 8388608 (-24)).

(* ================================================================== *)
(** * Properties *)
(* ================================================================== *)

(** ** The model against the repository's own checks *)

(** The literals are the correctly rounded decimal values. *)
Example literals_are_rounded :
  F32.of_Z 1 = F32.c1 /\ F32.of_Z 2 = F32.c2 /\ F32.of_Z 10 = F32.c10 /\
  F32.of_Z 100 = F32.c100 /\
  F32.div (F32.of_Z 1) (F32.of_Z 10) = F32.c0_1 /\
  F32.div (F32.of_Z 1) (F32.of_Z 100) = F32.c0_01 /\
  F32.div (F32.of_Z 1) (F32.of_Z 1000) = F32.c0_001 /\
  forallb F32.valid [F32.c0; F32.c1; F32.c2; F32.c10; F32.c100; F32.c0_1;
                     F32.c0_01; F32.c0_001; F32.infinity] = true.
Proof. repeat split; vm_compute; reflexivity. Qed.

(** The comparator tests of [aeb_tracker_test.cpp]. *)
Example comparator_unit_tests :
  (* FiniteCollitionTime *)
  Comparators.byCollisionTime (objZ 1 10 (-5)) (objZ 2 15 (-3)) = true /\
  Comparators.byCollisionTime (objZ 2 15 (-3)) (objZ 1 10 (-5)) = false /\
  (* InfiniteCollisionTime *)
  (let object1 := objZ 1 9 0 in
   let object2 := mkDetectedObject 2 (F32.of_Z 5) (F32.div (F32.of_Z (-7)) (F32.of_Z 2)) in
   let object3 := objZ 3 12 0 in
   Comparators.byCollisionTime object2 object1 = true /\
   Comparators.byCollisionTime object1 object2 = false /\
   Comparators.byCollisionTime object1 object3 = true /\
   Comparators.byCollisionTime object3 object1 = false) /\
  (* FiniteCollisionThreatlevel *)
  Comparators.byThreatLevel (objZ 4 15 (-3)) (objZ 7 10 (-8)) = false /\
  Comparators.byThreatLevel (objZ 7 10 (-8)) (objZ 4 15 (-3)) = true /\
  (* FiniteCollisionThreatlevelSame *)
  Comparators.byThreatLevel (objZ 10 50 (-5)) (objZ 11 50 (-5)) = false /\
  Comparators.byThreatLevel (objZ 11 50 (-5)) (objZ 10 50 (-5)) = false /\
  (* ThreatlevelBelowThreasholdUseDistanceAsTieBreaker *)
  (let v := F32.div (F32.of_Z 1) (F32.of_Z 10000) in
   let object1 := mkDetectedObject 12 (F32.of_Z 10) v in
   let object2 := mkDetectedObject 13 (F32.of_Z 5) v in
   Comparators.byThreatLevel object1 object2 = false /\
   Comparators.byThreatLevel object2 object1 = true) /\
  (* ThreatLevelZeroDistance *)
  Comparators.byThreatLevel (objZ 20 0 (-10)) (objZ 21 0 (-1)) = false /\
  Comparators.byThreatLevel (objZ 21 0 (-1)) (objZ 20 0 (-10)) = false.
Proof. repeat split; vm_compute; reflexivity. Qed.

(** The collision times of the basic sorting demonstration: 5, 1,
    infinity, 2 and 10 seconds. *)
Example scenario1_collision_times :
  map getCollisionTime (objects_ scenario1)
  = [F32.of_Z 5; F32.of_Z 1; F32.infinity; F32.of_Z 2; F32.of_Z 10].
Proof. vm_compute. reflexivity. Qed.

(** ** Order of binary32 values *)

Lemma ltb_rank (x y : float) :
  F32.isnan x = false -> F32.isnan y = false ->
  (F32.ltb x y = true <-> rank_lt (rank x) (rank y)).
Proof.
  unfold F32.ltb, SFltb.
  destruct x as [sx | sx | | sx mx ex], y as [sy | sy | | sy my ey];
    simpl; try discriminate; intros _ _;
    try (destruct sx; simpl; split; intros Hlt; try discriminate Hlt; lia);
    try (destruct sy; simpl; split; intros Hlt; try discriminate Hlt; lia);
    try (destruct sx, sy; simpl; split; intros Hlt; try discriminate Hlt; lia).
  destruct sx, sy; simpl; try (split; intros Hlt; try discriminate Hlt; lia);
    destruct (Z.compare_spec ex ey); simpl;
    try (split; intros Hlt; try discriminate Hlt; lia);
    change (Pos.compare_cont Eq mx my) with (Pos.compare mx my);
    destruct (Pos.compare_spec mx my); simpl;
    split; intros Hlt; try discriminate Hlt; try reflexivity; lia.
Qed.

Lemma leb_rank (x y : float) :
  F32.isnan x = false -> F32.isnan y = false ->
  (F32.leb x y = true <-> ~ rank_lt (rank y) (rank x)).
Proof.
  unfold F32.leb, SFleb.
  destruct x as [sx | sx | | sx mx ex], y as [sy | sy | | sy my ey];
    simpl; try discriminate; intros _ _;
    try (destruct sx; simpl; split; intros Hle; try discriminate Hle; try reflexivity; lia);
    try (destruct sy; simpl; split; intros Hle; try discriminate Hle; try reflexivity; lia);
    try (destruct sx, sy; simpl; split; intros Hle; try discriminate Hle; try reflexivity; lia).
  destruct sx, sy; simpl; try (split; intros Hle; try discriminate Hle; try reflexivity; lia);
    destruct (Z.compare_spec ex ey); simpl;
    try (split; intros Hle; try discriminate Hle; try reflexivity; lia);
    change (Pos.compare_cont Eq mx my) with (Pos.compare mx my);
    destruct (Pos.compare_spec mx my); simpl;
    split; intros Hle; try discriminate Hle; try reflexivity; lia.
Qed.

Lemma ltb_irrefl (x : float) : F32.ltb x x = false.
Proof.
  destruct (F32.isnan x) eqn:Hn.
  - destruct x; try discriminate; reflexivity.
  - destruct (F32.ltb x x) eqn:E; [|reflexivity].
    apply ltb_rank in E; auto. destruct (rank x) as [[a b] c]. simpl in E. lia.
Qed.

Lemma ltb_true_not_nan (x y : float) :
  F32.ltb x y = true -> F32.isnan x = false /\ F32.isnan y = false.
Proof.
  destruct x, y; simpl; try discriminate; auto.
Qed.

Lemma leb_true_not_nan (x y : float) :
  F32.leb x y = true -> F32.isnan x = false /\ F32.isnan y = false.
Proof.
  destruct x, y; simpl; try discriminate; auto.
Qed.

Lemma ltb_asym (x y : float) : F32.ltb x y = true -> F32.ltb y x = false.
Proof.
  intros H. destruct (ltb_true_not_nan _ _ H) as [Hx Hy].
  destruct (F32.ltb y x) eqn:E; [|reflexivity].
  apply ltb_rank in H; auto. apply ltb_rank in E; auto.
  destruct (rank x) as [[a b] c], (rank y) as [[a' b'] c']. simpl in *. lia.
Qed.

Lemma leb_trans (x y z : float) :
  F32.leb x y = true -> F32.leb y z = true -> F32.leb x z = true.
Proof.
  intros H1 H2.
  destruct (leb_true_not_nan _ _ H1) as [Hx Hy].
  destruct (leb_true_not_nan _ _ H2) as [_ Hz].
  apply leb_rank in H1; auto. apply leb_rank in H2; auto. apply leb_rank; auto.
  destruct (rank x) as [[a b] c], (rank y) as [[a' b'] c'], (rank z) as [[a'' b''] c''].
  simpl in *. lia.
Qed.

(** ** Algorithms on ranges *)

Lemma copy_if_from {A : Type} (pred : A -> bool) (l out : list A) :
  fold_left (fun out x => if pred x then out ++ [x] else out) l out
  = out ++ filter pred l.
Proof.
  revert out. induction l as [|x l IH]; intros out; simpl.
  - now rewrite app_nil_r.
  - rewrite IH. destruct (pred x); [now rewrite <- app_assoc | reflexivity].
Qed.

Lemma copy_if_filter {A : Type} (pred : A -> bool) (l : list A) :
  copy_if pred l = filter pred l.
Proof. unfold copy_if. now rewrite copy_if_from. Qed.

Lemma any_of_existsb {A : Type} (pred : A -> bool) (l : list A) :
  any_of pred l = existsb pred l.
Proof. induction l as [|x l IH]; simpl; [reflexivity|]. now destruct (pred x). Qed.

Lemma any_of_filter {A : Type} (pred : A -> bool) (l : list A) :
  any_of pred l = negb (match filter pred l with [] => true | _ :: _ => false end).
Proof.
  induction l as [|x l IH]; simpl; [reflexivity|].
  destruct (pred x); [reflexivity | exact IH].
Qed.

(** ** The collision-time comparator *)

(** Claim C2.  [Comparators::byCollisionTime (a, b)] compares the distances
    when both collision times are infinite, is false when only the first is
    infinite, true when only the second is infinite, and compares the
    collision times when neither is.  In particular an object whose
    collision time is not infinite is ordered before every object whose
    collision time is infinite, and never after it, whatever the distances. *)
Theorem byCollisionTime_cases (a b : DetectedObject) :
  Comparators.byCollisionTime a b =
    match F32.isinf (getCollisionTime a), F32.isinf (getCollisionTime b) with
    | true, true => F32.ltb (getDistance a) (getDistance b)
    | true, false => false
    | false, true => true
    | false, false => F32.ltb (getCollisionTime a) (getCollisionTime b)
    end
  /\ (F32.isinf (getCollisionTime a) = false ->
      F32.isinf (getCollisionTime b) = true ->
      Comparators.byCollisionTime a b = true /\
      Comparators.byCollisionTime b a = false).
Proof.
  unfold Comparators.byCollisionTime. split.
  - destruct (F32.isinf (getCollisionTime a)), (F32.isinf (getCollisionTime b));
      reflexivity.
  - intros -> ->. split; reflexivity.
Qed.

Lemma byCollisionTime_cases_witness :
  Comparators.byCollisionTime (objZ 2 5000 (-1)) (objZ 1 9 0) = true /\
  Comparators.byCollisionTime (objZ 1 9 0) (objZ 2 5000 (-1)) = false.
Proof.
  apply (proj2 (byCollisionTime_cases (objZ 2 5000 (-1)) (objZ 1 9 0)));
    vm_compute; reflexivity.
Defined.

(** ** Construction *)

(** Claim C5.  The constructor sets the collision time to
    [distance / -relativeVelocity] when [relativeVelocity < -0.1f] and to
    positive infinity otherwise; the default-constructed object is
    [(0, 0.0, 0.0)] with collision time [+infinity] and threat level [0.0]. *)
Theorem collisionTime_of_constructor (obj_id : Z) (dist rel_vel : float) :
  (F32.ltb rel_vel (F32.opp F32.c0_1) = true ->
     getCollisionTime (mkDetectedObject obj_id dist rel_vel)
     = F32.div dist (F32.opp rel_vel)) /\
  (F32.ltb rel_vel (F32.opp F32.c0_1) = false ->
     getCollisionTime (mkDetectedObject obj_id dist rel_vel) = F32.infinity) /\
  (getId defaultDetectedObject = 0 /\
   getDistance defaultDetectedObject = F32.c0 /\
   getRelativeVelocity defaultDetectedObject = F32.c0 /\
   getCollisionTime defaultDetectedObject = F32.infinity /\
   getThreatLevel defaultDetectedObject = F32.c0).
Proof.
  unfold getCollisionTime, mkDetectedObject, timeToCollision; simpl.
  split; [|split].
  - intros ->. reflexivity.
  - intros ->. reflexivity.
  - repeat split.
Qed.

Lemma collisionTime_of_constructor_witness :
  getCollisionTime (objZ 1 50 (-10)) = F32.div (F32.of_Z 50) (F32.opp (F32.of_Z (-10))) /\
  getCollisionTime (objZ 3 100 5) = F32.infinity.
Proof.
  split.
  - apply (proj1 (collisionTime_of_constructor 1 (F32.of_Z 50) (F32.of_Z (-10)))).
    vm_compute; reflexivity.
  - apply (proj1 (proj2 (collisionTime_of_constructor 3 (F32.of_Z 100) (F32.of_Z 5)))).
    vm_compute; reflexivity.
Defined.

(** ** Queries *)

(** Claim C7.  [getObjectsWithinTimeThreshold t] is the stored sequence
    filtered, in order, by "collision time not infinite and at most [t]";
    an object with an infinite collision time is never returned; and with a
    threshold [t'] such that [t <= t'] every object returned for [t] is
    returned for [t']. *)
Theorem getObjectsWithinTimeThreshold_spec (t : AEBObjectTracker) (threshold : float) :
  getObjectsWithinTimeThreshold threshold t
  = filter (fun obj => negb (F32.isinf (getCollisionTime obj)) &&
                       F32.leb (getCollisionTime obj) threshold) (objects_ t)
  /\ (forall obj, F32.isinf (getCollisionTime obj) = true ->
                  ~ In obj (getObjectsWithinTimeThreshold threshold t))
  /\ (forall threshold', F32.leb threshold threshold' = true ->
        incl (getObjectsWithinTimeThreshold threshold t)
             (getObjectsWithinTimeThreshold threshold' t)).
Proof.
  unfold getObjectsWithinTimeThreshold. rewrite copy_if_filter.
  split; [reflexivity | split].
  - intros obj Hinf Hin. apply filter_In in Hin as [_ Hin].
    unfold withinTimeThreshold in Hin. rewrite Hinf in Hin. discriminate.
  - intros threshold' Hle obj Hin. rewrite copy_if_filter.
    apply filter_In in Hin as [Hin Hp]. apply filter_In. split; [exact Hin|].
    unfold withinTimeThreshold in *.
    apply andb_true_iff in Hp as [Hfin Hp]. rewrite Hfin. simpl.
    exact (leb_trans _ _ _ Hp Hle).
Qed.

Lemma getObjectsWithinTimeThreshold_spec_witness :
  incl (getObjectsWithinTimeThreshold (F32.of_Z 2) scenario1)
       (getObjectsWithinTimeThreshold (F32.of_Z 5) scenario1).
Proof.
  apply (proj2 (proj2 (getObjectsWithinTimeThreshold_spec scenario1 (F32.of_Z 2)))).
  vm_compute. reflexivity.
Defined.

(** Claim C8.  [hasCriticalObjects t] is true exactly when some stored
    object has a collision time that is not infinite and at most [t]; it
    equals the negation of "[getObjectsWithinTimeThreshold t] is empty". *)
Theorem hasCriticalObjects_spec (t : AEBObjectTracker) (threshold : float) :
  (hasCriticalObjects threshold t = true <->
     exists obj, In obj (objects_ t) /\
                 F32.isinf (getCollisionTime obj) = false /\
                 F32.leb (getCollisionTime obj) threshold = true)
  /\ hasCriticalObjects threshold t
     = negb (match getObjectsWithinTimeThreshold threshold t with
             | [] => true
             | _ :: _ => false
             end).
Proof.
  unfold hasCriticalObjects, getObjectsWithinTimeThreshold. split.
  - rewrite any_of_existsb, existsb_exists. unfold withinTimeThreshold.
    split.
    + intros [obj [Hin Hp]]. exists obj. apply andb_true_iff in Hp as [Hf Hl].
      apply negb_true_iff in Hf. auto.
    + intros [obj [Hin [Hf Hl]]]. exists obj. split; [exact Hin|].
      rewrite Hf, Hl. reflexivity.
  - rewrite copy_if_filter. apply any_of_filter.
Qed.

Lemma hasCriticalObjects_spec_witness :
  exists obj, In obj (objects_ scenario1) /\
              F32.isinf (getCollisionTime obj) = false /\
              F32.leb (getCollisionTime obj) (F32.of_Z 2) = true.
Proof.
  apply (proj1 (proj1 (hasCriticalObjects_spec scenario1 (F32.of_Z 2)))).
  vm_compute. reflexivity.
Defined.

(** ** [operator<] *)

(** Claim C10, as stated, fails: two objects can both have an infinite
    collision time, one negative and one positive, and then [operator<]
    orders them. *)
Lemma operator_lt_on_opposite_infinities :
  ~ (forall a b : DetectedObject,
       F32.isinf (getCollisionTime a) = true ->
       F32.isinf (getCollisionTime b) = true ->
       DetectedObject_lt a b = false /\ DetectedObject_lt b a = false).
Proof.
  intros Hclaim.
  destruct (Hclaim overflowing defaultDetectedObject) as [H _];
    try (vm_compute; reflexivity).
  vm_compute in H. discriminate.
Qed.

(** Claim C10, amended.  [operator<] is the comparison of the raw
    [collision_time_] members, with no special case for infinities and no
    tie-break on the distance; on two objects whose collision times are both
    positive infinity it is false in both directions even when their
    distances differ, where [Comparators::byCollisionTime] orders the nearer
    one first, so the two orderings differ. *)
Theorem operator_lt_is_raw_collision_time_order :
  (forall a b : DetectedObject,
     DetectedObject_lt a b = F32.ltb (collision_time_ a) (collision_time_ b)) /\
  (forall a b : DetectedObject,
     getCollisionTime a = F32.infinity -> getCollisionTime b = F32.infinity ->
     DetectedObject_lt a b = false /\ DetectedObject_lt b a = false) /\
  (exists a b : DetectedObject,
     getCollisionTime a = F32.infinity /\ getCollisionTime b = F32.infinity /\
     getDistance a <> getDistance b /\
     DetectedObject_lt a b = false /\ DetectedObject_lt b a = false /\
     Comparators.byCollisionTime a b = true).
Proof.
  split; [reflexivity | split].
  - unfold DetectedObject_lt, getCollisionTime. intros a b -> ->. split; reflexivity.
  - exists (objZ 1 9 0), (objZ 3 12 0). repeat split; try (vm_compute; reflexivity).
    vm_compute. discriminate.
Qed.

Lemma operator_lt_is_raw_collision_time_order_witness :
  DetectedObject_lt (objZ 1 9 0) (objZ 3 12 0) = false /\
  DetectedObject_lt (objZ 3 12 0) (objZ 1 9 0) = false.
Proof.
  apply (proj1 (proj2 operator_lt_is_raw_collision_time_order));
    vm_compute; reflexivity.
Defined.

(** ** The magnitude of a difference does not depend on the order of the operands *)

Lemma abs_binary_round_aux (s s' : bool) (m e : Z) (l : location) :
  SFabs (binary_round_aux F32.prec F32.emax s m e l)
  = SFabs (binary_round_aux F32.prec F32.emax s' m e l).
Proof.
  unfold binary_round_aux.
  destruct (shr_fexp F32.prec F32.emax m e l) as [mrs' e'].
  destruct (shr_fexp F32.prec F32.emax _ e' loc_Exact) as [mrs'' e''].
  destruct (shr_m mrs''); try reflexivity.
  destruct (e'' <=? F32.emax - F32.prec); reflexivity.
Qed.

Lemma abs_binary_round (s s' : bool) (m : positive) (e : Z) :
  SFabs (binary_round F32.prec F32.emax s m e)
  = SFabs (binary_round F32.prec F32.emax s' m e).
Proof.
  unfold binary_round.
  destruct (shl_align m e _) as [mz ez]. apply abs_binary_round_aux.
Qed.

Lemma abs_binary_normalize_opp (m e : Z) :
  SFabs (binary_normalize F32.prec F32.emax (- m) e false)
  = SFabs (binary_normalize F32.prec F32.emax m e false).
Proof.
  destruct m as [|p|p]; simpl; try reflexivity; apply abs_binary_round.
Qed.

Lemma abs_sub_sym (x y : float) : F32.abs (F32.sub x y) = F32.abs (F32.sub y x).
Proof.
  unfold F32.abs, F32.sub.
  destruct x as [sx | sx | | sx mx ex], y as [sy | sy | | sy my ey];
    try reflexivity;
    try (destruct sx, sy; reflexivity);
    try (destruct sx; reflexivity);
    try (destruct sy; reflexivity).
  unfold SFsub. rewrite (Z.min_comm ey ex).
  rewrite <- abs_binary_normalize_opp. f_equal. f_equal. lia.
Qed.

(** ** The threat-level comparator *)

(** Claim C6, as stated, fails: on three objects whose threat levels are
    0.7250, 0.7256 and 0.7264 and whose distances grow, [byThreatLevel]
    orders the first before the second and the second before the third by
    distance, but the third before the first by threat level.  It is not
    transitive, hence not a strict weak ordering. *)
Lemma byThreatLevel_not_strict_weak_order :
  ~ strict_weak_order_on Comparators.byThreatLevel
      [objZ 1 5 (-1); objZ 2 26 (-9); objZ 3 42 (-33)].
Proof.
  intros [_ Htrans _].
  specialize (Htrans (objZ 1 5 (-1)) (objZ 2 26 (-9)) (objZ 3 42 (-33))).
  simpl in Htrans.
  assert (H : Comparators.byThreatLevel (objZ 1 5 (-1)) (objZ 3 42 (-33)) = true).
  { apply Htrans; auto; vm_compute; reflexivity. }
  vm_compute in H. discriminate H.
Qed.

(** Claim C6, amended.  [byThreatLevel] is irreflexive and asymmetric on all
    [DetectedObject] values.  (Transitivity is not part of the statement.) *)
Theorem byThreatLevel_irreflexive_asymmetric :
  (forall a : DetectedObject, Comparators.byThreatLevel a a = false) /\
  (forall a b : DetectedObject,
     Comparators.byThreatLevel a b = true -> Comparators.byThreatLevel b a = false).
Proof.
  unfold Comparators.byThreatLevel, F32.gtb. split.
  - intros a. destruct (F32.ltb _ Comparators.kThreatLevelFactor); apply ltb_irrefl.
  - intros a b. rewrite (abs_sub_sym (getThreatLevel b) (getThreatLevel a)).
    destruct (F32.ltb _ Comparators.kThreatLevelFactor); apply ltb_asym.
Qed.

Lemma byThreatLevel_irreflexive_asymmetric_witness :
  Comparators.byThreatLevel (objZ 4 15 (-3)) (objZ 7 10 (-8)) = false.
Proof.
  apply (proj2 byThreatLevel_irreflexive_asymmetric). vm_compute. reflexivity.
Defined.

(** ** Sorted ranges and the contract of the sorting algorithms *)

Section SortingFacts.

Context {A : Type}.
Variable comp : A -> A -> bool.

Lemma in_firstn (n : nat) (l : list A) (x : A) : In x (firstn n l) -> In x l.
Proof.
  intros Hx. rewrite <- (firstn_skipn n l). apply in_or_app. now left.
Qed.

Lemma in_skipn (n : nat) (l : list A) (x : A) : In x (skipn n l) -> In x l.
Proof.
  intros Hx. rewrite <- (firstn_skipn n l). apply in_or_app. now right.
Qed.

Lemma sorted_wrtb_spec (l : list A) :
  sorted_wrtb comp l = true <-> sorted_wrt comp l.
Proof.
  unfold sorted_wrt. induction l as [|x t IH]; simpl.
  - split; [constructor | reflexivity].
  - rewrite andb_true_iff, forallb_forall, IH. split.
    + intros [Hx Ht]. constructor; [exact Ht|].
      apply Forall_forall. intros y Hy. apply negb_true_iff. now apply Hx.
    + intros Hs. inversion Hs as [|? ? Ht Hx]; subst. split; [|exact Ht].
      intros y Hy. apply negb_true_iff. rewrite Forall_forall in Hx. now apply Hx.
Qed.

Lemma sorted_wrt_app_inv (pre post : list A) (x : A) :
  sorted_wrt comp (pre ++ x :: post) ->
  Forall (fun w => comp x w = false) pre /\ Forall (fun w => comp w x = false) post.
Proof.
  unfold sorted_wrt. induction pre as [|p pre IH]; simpl; intros Hs.
  - inversion Hs; subst. split; [constructor | assumption].
  - inversion Hs as [|? ? Ht Hp]; subst. destruct (IH Ht) as [H1 H2].
    split; [|exact H2]. constructor; [|exact H1].
    rewrite Forall_forall in Hp. apply Hp. apply in_or_app. right. now left.
Qed.

Lemma sorted_wrt_firstn (n : nat) (l : list A) :
  sorted_wrt comp l -> sorted_wrt comp (firstn n l).
Proof.
  unfold sorted_wrt. revert n. induction l as [|x t IH]; intros [|n] Hs; simpl;
    try constructor.
  - inversion Hs; subst. now apply IH.
  - inversion Hs as [|? ? Ht Hx]; subst. rewrite Forall_forall in *.
    intros y Hy. apply Hx. eapply in_firstn; eauto.
Qed.

Lemma sorted_wrt_cross (n : nat) (l : list A) :
  sorted_wrt comp l ->
  forall x y, In x (firstn n l) -> In y (skipn n l) -> comp y x = false.
Proof.
  unfold sorted_wrt. revert n. induction l as [|a t IH]; intros [|n] Hs x y Hx Hy;
    simpl in *; try contradiction.
  inversion Hs as [|? ? Ht Ha]; subst. destruct Hx as [<- | Hx].
  - rewrite Forall_forall in Ha. apply Ha. eapply in_skipn; eauto.
  - eapply IH; eauto.
Qed.

(** A finished [std::sort] is also a finished [std::partial_sort], whatever
    the length of the prefix asked for. *)
Lemma std_sort_is_partial_sort (n : nat) (l l' : list A) :
  std_sort comp l l' -> std_partial_sort comp n l l'.
Proof.
  intros [Hp Hs]. split; [exact Hp | split].
  - now apply sorted_wrt_firstn.
  - now apply sorted_wrt_cross.
Qed.

(** *** Straight insertion meets the contract of [std::sort] *)

Lemma insert_sorted_perm (x : A) (l : list A) :
  Permutation (x :: l) (insert_sorted comp x l).
Proof.
  induction l as [|y t IH]; simpl; [reflexivity|].
  destruct (comp x y); [reflexivity|].
  rewrite perm_swap. now apply perm_skip.
Qed.

Lemma insertion_sort_perm (l : list A) : Permutation l (insertion_sort comp l).
Proof.
  induction l as [|x t IH]; simpl; [reflexivity|].
  rewrite <- insert_sorted_perm. now apply perm_skip.
Qed.

Lemma swo_asym (u : list A) (a b : A) :
  strict_weak_order_on comp u -> In a u -> In b u ->
  comp a b = true -> comp b a = false.
Proof.
  intros Hswo Ha Hb Hab. destruct (comp b a) eqn:Hba; [|reflexivity].
  pose proof (swo_trans comp u Hswo a b a Ha Hb Ha Hab Hba) as Haa.
  rewrite (swo_irrefl comp u Hswo a Ha) in Haa. discriminate.
Qed.

(** If [a] is ordered before [b], any [w] falls after [a] or before [b]. *)
Lemma swo_between (u : list A) (a b w : A) :
  strict_weak_order_on comp u -> In a u -> In b u -> In w u ->
  comp a b = true -> comp a w = false -> comp w b = true.
Proof.
  intros Hswo Ha Hb Hw Hab Haw.
  destruct (comp w b) eqn:Hwb; [reflexivity|].
  assert (Hwa : comp w a = false).
  { destruct (comp w a) eqn:E; [|reflexivity].
    rewrite (swo_trans comp u Hswo w a b Hw Ha Hb E Hab) in Hwb. discriminate. }
  assert (Hbw : comp b w = false).
  { destruct (comp b w) eqn:E; [|reflexivity].
    rewrite (swo_trans comp u Hswo a b w Ha Hb Hw Hab E) in Haw. discriminate. }
  destruct (swo_equiv_trans comp u Hswo a w b Ha Hw Hb) as [Hab' _];
    [split; assumption | split; assumption |].
  rewrite Hab in Hab'. discriminate.
Qed.

Lemma insert_sorted_sorted (u : list A) (x : A) (l : list A) :
  strict_weak_order_on comp u -> In x u -> incl l u ->
  sorted_wrt comp l -> sorted_wrt comp (insert_sorted comp x l).
Proof.
  intros Hswo Hx. unfold sorted_wrt.
  induction l as [|y t IH]; simpl; intros Hincl Hs.
  - constructor; constructor.
  - assert (Hy : In y u) by (apply Hincl; now left).
    assert (Ht : incl t u) by (intros z Hz; apply Hincl; now right).
    inversion Hs as [|? ? Hst Hyt]; subst.
    destruct (comp x y) eqn:Hxy.
    + constructor; [exact Hs|]. constructor.
      * eapply swo_asym; eauto.
      * rewrite Forall_forall in *. intros z Hz.
        destruct (comp z x) eqn:Hzx; [|reflexivity].
        pose proof (Hyt z Hz) as Hzy.
        rewrite (swo_trans comp u Hswo z x y (Ht z Hz) Hx Hy Hzx Hxy) in Hzy.
        discriminate.
    + constructor; [now apply IH|].
      rewrite Forall_forall in *. intros z Hz.
      apply (Permutation_in z (Permutation_sym (insert_sorted_perm x t))) in Hz.
      destruct Hz as [<- | Hz]; [exact Hxy | now apply Hyt].
Qed.

Lemma insertion_sort_sorted (u l : list A) :
  strict_weak_order_on comp u -> incl l u ->
  sorted_wrt comp (insertion_sort comp l).
Proof.
  intros Hswo. induction l as [|x t IH]; simpl; intros Hincl.
  - constructor.
  - apply (insert_sorted_sorted u); auto.
    + apply Hincl. now left.
    + intros z Hz. apply Hincl. right.
      exact (Permutation_in z (Permutation_sym (insertion_sort_perm t)) Hz).
    + apply IH. intros z Hz. apply Hincl. now right.
Qed.

Lemma insertion_sort_std_sort (l : list A) :
  strict_weak_order_on comp l -> std_sort comp l (insertion_sort comp l).
Proof.
  intros Hswo. split; [apply insertion_sort_perm|].
  apply (insertion_sort_sorted l); [exact Hswo | apply incl_refl].
Qed.

End SortingFacts.

(** ** Ranks in a sorted range *)

Section Ranks.

Context {A : Type}.
Variable comp : A -> A -> bool.

Lemma count_app (p : A -> bool) (l1 l2 : list A) :
  count p (l1 ++ l2) = (count p l1 + count p l2)%nat.
Proof. unfold count. now rewrite filter_app, length_app. Qed.

Lemma count_le_length (p : A -> bool) (l : list A) : (count p l <= length l)%nat.
Proof.
  unfold count. induction l as [|x t IH]; simpl; [lia|].
  destruct (p x); simpl; lia.
Qed.

Lemma count_all (p : A -> bool) (l : list A) :
  Forall (fun x => p x = true) l -> count p l = length l.
Proof.
  unfold count. induction 1 as [|x t Hx _ IH]; simpl; [reflexivity|].
  rewrite Hx. simpl. now rewrite IH.
Qed.

Lemma count_none (p : A -> bool) (l : list A) :
  Forall (fun x => p x = false) l -> count p l = O.
Proof.
  unfold count. induction 1 as [|x t Hx _ IH]; simpl; [reflexivity|].
  now rewrite Hx.
Qed.

Lemma count_mono (p q : A -> bool) (l : list A) :
  (forall x, In x l -> p x = true -> q x = true) -> (count p l <= count q l)%nat.
Proof.
  unfold count. induction l as [|x t IH]; intros Himp; simpl; [lia|].
  assert (IHt : (length (filter p t) <= length (filter q t))%nat).
  { apply IH. intros y Hy. apply Himp. now right. }
  destruct (p x) eqn:Hp.
  - rewrite (Himp x (or_introl eq_refl) Hp). simpl. lia.
  - destruct (q x); simpl; lia.
Qed.

Lemma count_perm (p : A -> bool) (l l' : list A) :
  Permutation l l' -> count p l = count p l'.
Proof.
  unfold count. induction 1 as [| x l l' _ IH | x y l | l l' l'' _ IH1 _ IH2]; simpl.
  - reflexivity.
  - destruct (p x); simpl; now rewrite IH.
  - destruct (p x), (p y); reflexivity.
  - now rewrite IH1.
Qed.

(** At most [i] elements are ordered before the element at rank [i]... *)
Lemma at_rank_before (l : list A) (i : nat) (x : A) :
  comp x x = false -> at_rank comp l i x ->
  (count (fun w => comp w x) l <= i)%nat.
Proof.
  intros Hxx (pre & post & -> & <- & _ & Hpost).
  rewrite count_app. change (x :: post) with ([x] ++ post). rewrite count_app.
  rewrite (count_none _ post Hpost). unfold count at 2. simpl. rewrite Hxx. simpl.
  pose proof (count_le_length (fun w => comp w x) pre). lia.
Qed.

(** ... and at least [i + 1] are not ordered after it. *)
Lemma at_rank_upto (l : list A) (i : nat) (x : A) :
  comp x x = false -> at_rank comp l i x ->
  (i + 1 <= count (fun w => negb (comp x w)) l)%nat.
Proof.
  intros Hxx (pre & post & -> & <- & Hpre & _).
  rewrite count_app. change (x :: post) with ([x] ++ post). rewrite count_app.
  rewrite (count_all _ pre).
  - unfold count at 1. simpl. rewrite Hxx. simpl. lia.
  - eapply Forall_impl; [|exact Hpre]. intros w Hw. simpl in Hw. now rewrite Hw.
Qed.

Lemma at_rank_In (l : list A) (i : nat) (x : A) : at_rank comp l i x -> In x l.
Proof. intros (pre & post & -> & _). apply in_or_app. right. now left. Qed.

(** Two elements at the same rank of two arrangements of one range are
    equivalent for the comparator. *)
Lemma at_rank_equiv (l1 l2 : list A) (i : nat) (x y : A) :
  strict_weak_order_on comp l1 -> Permutation l1 l2 ->
  at_rank comp l1 i x -> at_rank comp l2 i y -> equiv_wrt comp x y.
Proof.
  intros Hswo Hperm Hx Hy.
  assert (Hx1 : In x l1) by (eapply at_rank_In; eauto).
  assert (Hy1 : In y l1).
  { apply (Permutation_in y (Permutation_sym Hperm)). eapply at_rank_In; eauto. }
  pose proof (swo_irrefl comp l1 Hswo x Hx1) as Hxx.
  pose proof (swo_irrefl comp l1 Hswo y Hy1) as Hyy.
  pose proof (at_rank_before l1 i x Hxx Hx) as Bx.
  pose proof (at_rank_upto l1 i x Hxx Hx) as Ux.
  pose proof (at_rank_before l2 i y Hyy Hy) as By.
  pose proof (at_rank_upto l2 i y Hyy Hy) as Uy.
  rewrite <- (count_perm _ l1 l2 Hperm) in By.
  rewrite <- (count_perm _ l1 l2 Hperm) in Uy.
  split.
  - destruct (comp x y) eqn:Hxy; [exfalso | reflexivity].
    assert (count (fun w => negb (comp x w)) l1 <= count (fun w => comp w y) l1)%nat.
    { apply count_mono. intros w Hw Hxw. apply negb_true_iff in Hxw.
      exact (swo_between comp l1 x y w Hswo Hx1 Hy1 Hw Hxy Hxw). }
    lia.
  - destruct (comp y x) eqn:Hyx; [exfalso | reflexivity].
    assert (count (fun w => negb (comp y w)) l1 <= count (fun w => comp w x) l1)%nat.
    { apply count_mono. intros w Hw Hyw. apply negb_true_iff in Hyw.
      exact (swo_between comp l1 y x w Hswo Hy1 Hx1 Hw Hyx Hyw). }
    lia.
Qed.

Lemma sorted_at_rank (l : list A) (i : nat) (x : A) :
  sorted_wrt comp l -> nth_error l i = Some x -> at_rank comp l i x.
Proof.
  intros Hs Hn. destruct (nth_error_split l i Hn) as (pre & post & -> & Hlen).
  exists pre, post. destruct (sorted_wrt_app_inv comp pre post x Hs). auto.
Qed.

Lemma partial_sort_at_rank (n : nat) (l : list A) (i : nat) (x : A) :
  sorted_wrt comp (firstn n l) ->
  (forall a b, In a (firstn n l) -> In b (skipn n l) -> comp b a = false) ->
  nth_error (firstn n l) i = Some x -> at_rank comp l i x.
Proof.
  intros Hs Hcross Hn.
  destruct (sorted_at_rank _ i x Hs Hn) as (pre & post & Heq & Hlen & Hpre & Hpost).
  exists pre, (post ++ skipn n l). repeat split; auto.
  - rewrite <- (firstn_skipn n l) at 1. rewrite Heq, <- app_assoc. reflexivity.
  - apply Forall_app. split; [exact Hpost|].
    apply Forall_forall. intros w Hw. apply Hcross; [|exact Hw].
    rewrite Heq. apply in_or_app. right. now left.
Qed.

Lemma Forall2_by_nth_error {B : Type} (R : B -> B -> Prop) (l1 l2 : list B) :
  length l1 = length l2 ->
  (forall i x y, nth_error l1 i = Some x -> nth_error l2 i = Some y -> R x y) ->
  Forall2 R l1 l2.
Proof.
  revert l2. induction l1 as [|a t IH]; intros [|b t'] Hlen Hnth; simpl in Hlen;
    try discriminate; constructor.
  - exact (Hnth O a b eq_refl eq_refl).
  - apply IH; [congruence|]. intros i x y Hx Hy. exact (Hnth (S i) x y Hx Hy).
Qed.

(** The first [n] places after a full sort and after a partial sort of the
    same range hold pairwise equivalent elements. *)
Lemma sort_partial_sort_prefix (n : nat) (l l1 l2 : list A) :
  strict_weak_order_on comp l ->
  std_sort comp l l1 -> std_partial_sort comp n l l2 ->
  Forall2 (equiv_wrt comp) (firstn n l1) (firstn n l2).
Proof.
  intros Hswo [Hp1 Hs1] (Hp2 & Hs2 & Hc2).
  assert (Hswo1 : strict_weak_order_on comp l1).
  { assert (Hin : forall a, In a l1 -> In a l).
    { intros a Ha. exact (Permutation_in a (Permutation_sym Hp1) Ha). }
    destruct Hswo as [Hi Ht He]. split.
    - intros a Ha. apply Hi. now apply Hin.
    - intros a b c Ha Hb Hc. apply Ht; now apply Hin.
    - intros a b c Ha Hb Hc. apply He; now apply Hin. }
  assert (Hp12 : Permutation l1 l2) by (rewrite <- Hp1; exact Hp2).
  apply Forall2_by_nth_error.
  - rewrite !length_firstn. now rewrite (Permutation_length Hp12).
  - intros i x y Hx Hy.
    apply (at_rank_equiv l1 l2 i x y Hswo1 Hp12).
    + apply sorted_at_rank; [exact Hs1|].
      assert (Hi : (i < n)%nat).
      { assert (Hlt : (i < length (firstn n l1))%nat)
          by (apply nth_error_Some; rewrite Hx; discriminate).
        rewrite length_firstn in Hlt. lia. }
      rewrite nth_error_firstn in Hx.
      destruct (Nat.ltb_spec i n); [exact Hx | lia].
    + eapply partial_sort_at_rank; eauto.
Qed.

Lemma Forall2_equiv_eq {B : Type} (R : B -> B -> Prop) (u l1 l2 : list B) :
  (forall a b, In a u -> In b u -> R a b -> a = b) ->
  incl l1 u -> incl l2 u -> Forall2 R l1 l2 -> l1 = l2.
Proof.
  intros Huniq H1 H2 HF. induction HF as [|a b t t' Hab _ IH]; [reflexivity|].
  f_equal.
  - apply Huniq; auto; [apply H1 | apply H2]; now left.
  - apply IH; intros z Hz; [apply H1 | apply H2]; now right.
Qed.

End Ranks.

(** ** Full sort and partial sort of the tracker *)

Lemma byCollisionTime_rank (a b : DetectedObject) :
  comparableByCollisionTime a -> comparableByCollisionTime b ->
  (Comparators.byCollisionTime a b = true <->
   fst (collisionRank a) < fst (collisionRank b) \/
   (fst (collisionRank a) = fst (collisionRank b) /\
    rank_lt (snd (collisionRank a)) (snd (collisionRank b)))).
Proof.
  unfold comparableByCollisionTime, collisionRank, collisionKey,
    Comparators.byCollisionTime.
  destruct (F32.isinf (getCollisionTime a)), (F32.isinf (getCollisionTime b));
    simpl; intros Ha Hb.
  - rewrite (ltb_rank _ _ Ha Hb). split; [intros H; right; auto | intros [H|[_ H]]; [lia | exact H]].
  - split; [discriminate | intros [H|[H _]]; lia].
  - split; [intros _; left; lia | reflexivity].
  - rewrite (ltb_rank _ _ Ha Hb). split; [intros H; right; auto | intros [H|[_ H]]; [lia | exact H]].
Qed.

Lemma byCollisionTime_false_rank (a b : DetectedObject) :
  comparableByCollisionTime a -> comparableByCollisionTime b ->
  (Comparators.byCollisionTime a b = false <->
   ~ (fst (collisionRank a) < fst (collisionRank b) \/
      (fst (collisionRank a) = fst (collisionRank b) /\
       rank_lt (snd (collisionRank a)) (snd (collisionRank b))))).
Proof.
  intros Ha Hb. rewrite <- (byCollisionTime_rank a b Ha Hb).
  destruct (Comparators.byCollisionTime a b); split; intros H;
    try reflexivity; try discriminate; try congruence.
Qed.

(** On objects it can order, [byCollisionTime] is a strict weak ordering. *)
Lemma byCollisionTime_swo (l : list DetectedObject) :
  Forall comparableByCollisionTime l ->
  strict_weak_order_on Comparators.byCollisionTime l.
Proof.
  intros Hall. rewrite Forall_forall in Hall. split.
  - intros a Ha. apply byCollisionTime_false_rank; auto.
    destruct (collisionRank a) as [f [[x y] z]]. simpl. lia.
  - intros a b c Ha Hb Hc Hab Hbc.
    apply byCollisionTime_rank in Hab; auto. apply byCollisionTime_rank in Hbc; auto.
    apply byCollisionTime_rank; auto.
    destruct (collisionRank a) as [fa [[xa ya] za]],
             (collisionRank b) as [fb [[xb yb] zb]],
             (collisionRank c) as [fc [[xc yc] zc]]. simpl in *. lia.
  - intros a b c Ha Hb Hc [Hab Hba] [Hbc Hcb].
    apply byCollisionTime_false_rank in Hab, Hba, Hbc, Hcb; auto.
    split; apply byCollisionTime_false_rank; auto;
    destruct (collisionRank a) as [fa [[xa ya] za]],
             (collisionRank b) as [fb [[xb yb] zb]],
             (collisionRank c) as [fc [[xc yc] zc]]; simpl in *; lia.
Qed.

(** On objects the comparator can order, both sorting members have a
    result. *)
Lemma sortByCollisionTime_total (t : AEBObjectTracker) :
  Forall comparableByCollisionTime (objects_ t) ->
  exists t', sortByCollisionTime t t'.
Proof.
  intros Hall.
  exists {| objects_ := insertion_sort Comparators.byCollisionTime (objects_ t) |}.
  apply insertion_sort_std_sort, byCollisionTime_swo, Hall.
Qed.

Lemma partialSortCriticalObjects_total (max_objects : nat) (t : AEBObjectTracker) :
  Forall comparableByCollisionTime (objects_ t) ->
  exists t', partialSortCriticalObjects max_objects t t'.
Proof.
  intros Hall. unfold partialSortCriticalObjects.
  destruct (empty t); [now exists t|].
  destruct (sortByCollisionTime_total t Hall) as [t' Ht'].
  exists t'. apply std_sort_is_partial_sort, Ht'.
Qed.

(** Claim C3, amended.  On a tracker all of whose objects the comparator can
    order (no NaN key), and for every [k]: the [k] critical objects read
    after [sortByCollisionTime] and those read after
    [partialSortCriticalObjects k] are as many and pairwise equivalent for
    [byCollisionTime], place by place; and they are the same objects in the
    same order when no two different stored objects are equivalent. *)
Theorem criticalObjects_sort_vs_partialSort
  (t t1 t2 : AEBObjectTracker) (k : nat) :
  Forall comparableByCollisionTime (objects_ t) ->
  sortByCollisionTime t t1 ->
  partialSortCriticalObjects k t t2 ->
  Forall2 (equiv_wrt Comparators.byCollisionTime)
          (getCriticalObjects k t1) (getCriticalObjects k t2)
  /\ (no_ties Comparators.byCollisionTime (objects_ t) ->
      getCriticalObjects k t1 = getCriticalObjects k t2).
Proof.
  intros Hall Hsort Hpart.
  pose proof (byCollisionTime_swo _ Hall) as Hswo.
  unfold sortByCollisionTime in Hsort. unfold partialSortCriticalObjects in Hpart.
  assert (Hlen1 : length (objects_ t1) = length (objects_ t))
    by (symmetry; apply Permutation_length, Hsort).
  assert (HF : Forall2 (equiv_wrt Comparators.byCollisionTime)
                 (getCriticalObjects k t1) (getCriticalObjects k t2)
               /\ Permutation (objects_ t) (objects_ t2)).
  { unfold getCriticalObjects, empty in *.
    destruct (objects_ t) as [|o os] eqn:Hobjs.
    - subst t2. rewrite Hobjs. destruct Hsort as [Hp _].
      apply Permutation_nil in Hp. rewrite Hp. split; [|reflexivity].
      rewrite !firstn_nil. constructor.
    - assert (Hlen2 : length (objects_ t2) = length (o :: os))
        by (symmetry; apply Permutation_length, Hpart).
      rewrite Hlen1, Hlen2. split; [|apply Hpart].
      apply (sort_partial_sort_prefix _ _ (o :: os)); assumption. }
  destruct HF as [HF Hp2]. split; [exact HF|].
  intros Hties.
  apply (Forall2_equiv_eq _ (objects_ t) _ _ Hties); [| |exact HF].
  - intros z Hz. unfold getCriticalObjects in Hz. apply in_firstn in Hz.
    destruct Hsort as [Hp _]. exact (Permutation_in z (Permutation_sym Hp) Hz).
  - intros z Hz. unfold getCriticalObjects in Hz. apply in_firstn in Hz.
    exact (Permutation_in z (Permutation_sym Hp2) Hz).
Qed.

Ltac sorted_by_computation :=
  apply sorted_wrtb_spec; vm_compute; reflexivity.

Lemma scenario1_sort : sortByCollisionTime scenario1 scenario1_sorted.
Proof.
  split; [|sorted_by_computation]. simpl.
  apply (Permutation_cons_app [objZ 2 20 (-20); objZ 4 30 (-15)]
                              [objZ 5 80 (-8); objZ 3 100 5]). simpl.
  apply perm_skip.
  apply (Permutation_cons_app [objZ 4 30 (-15); objZ 5 80 (-8)] []). simpl.
  reflexivity.
Qed.

Lemma scenario1_partial : partialSortCriticalObjects 3 scenario1 scenario1_top3.
Proof.
  split; [|split].
  - simpl.
    apply (Permutation_cons_app [objZ 2 20 (-20); objZ 4 30 (-15)]
                                [objZ 3 100 5; objZ 5 80 (-8)]). simpl.
    apply perm_skip. apply perm_swap.
  - sorted_by_computation.
  - intros x y Hx Hy. simpl in Hx, Hy.
    destruct Hx as [<-|[<-|[<-|[]]]]; destruct Hy as [<-|[<-|[]]];
      vm_compute; reflexivity.
Qed.

Lemma scenario1_comparable : Forall comparableByCollisionTime (objects_ scenario1).
Proof. repeat constructor. Qed.

Lemma scenario1_no_ties : no_ties Comparators.byCollisionTime (objects_ scenario1).
Proof.
  intros a b Ha Hb [E1 E2]. simpl in Ha, Hb.
  destruct Ha as [<-|[<-|[<-|[<-|[<-|[]]]]]];
    destruct Hb as [<-|[<-|[<-|[<-|[<-|[]]]]]];
    try reflexivity; vm_compute in E1; vm_compute in E2; discriminate.
Qed.

Lemma criticalObjects_sort_vs_partialSort_witness :
  getCriticalObjects 3 scenario1_sorted = getCriticalObjects 3 scenario1_top3.
Proof.
  exact (proj2 (criticalObjects_sort_vs_partialSort scenario1 scenario1_sorted
                  scenario1_top3 3 scenario1_comparable scenario1_sort
                  scenario1_partial) scenario1_no_ties).
Defined.

(** Claim C3, as stated, fails when two stored objects tie: both orders of
    the tied pair are sorted, and the two algorithms need not choose the
    same one. *)
Lemma criticalObjects_prefix_differs_on_ties :
  ~ (forall (t t1 t2 : AEBObjectTracker) (k : nat),
       (k <= size t)%nat ->
       sortByCollisionTime t t1 -> partialSortCriticalObjects k t t2 ->
       getCriticalObjects k t1 = getCriticalObjects k t2).
Proof.
  intros Hclaim.
  assert (Hsort : sortByCollisionTime tied tied_sorted).
  { split; [|sorted_by_computation]. simpl.
    apply (Permutation_cons_app [objZ 2 10 (-5); objZ 3 20 (-10)] []). simpl.
    reflexivity. }
  assert (Hpart : partialSortCriticalObjects 2 tied tied_top2).
  { split; [|split].
    - simpl. apply (Permutation_cons_app [objZ 3 20 (-10); objZ 2 10 (-5)] []).
      simpl. apply perm_swap.
    - sorted_by_computation.
    - intros x y Hx Hy. simpl in Hx, Hy.
      destruct Hx as [<-|[<-|[]]]; destruct Hy as [<-|[]]; vm_compute; reflexivity. }
  assert (Hk : (2 <= size tied)%nat) by (unfold size, tied; simpl; lia).
  specialize (Hclaim tied tied_sorted tied_top2 2%nat Hk Hsort Hpart).
  vm_compute in Hclaim. discriminate Hclaim.
Qed.

(** ** [sortByThreatLevel] *)

(** Claim C1, evaluated on the code.  [sortByThreatLevel] sorts with
    [Comparators::byCollisionTime]: on the tracker [crossing] every result
    is the order "far and fast, then near and slow", which is not sorted
    with respect to [Comparators::byThreatLevel]. *)
Theorem sortByThreatLevel_orders_by_collision_time :
  (exists t', sortByThreatLevel crossing t') /\
  (forall t', sortByThreatLevel crossing t' ->
     objects_ t' = [objZ 1 100 (-50); objZ 2 10 (-2)] /\
     ~ sorted_wrt Comparators.byThreatLevel (objects_ t')).
Proof.
  split.
  - exists {| objects_ := [objZ 1 100 (-50); objZ 2 10 (-2)] |}.
    split; [apply perm_swap | sorted_by_computation].
  - intros t' [Hperm Hsorted]. simpl in Hperm.
    apply Permutation_length_2_inv in Hperm.
    assert (Hobjs : objects_ t' = [objZ 1 100 (-50); objZ 2 10 (-2)]).
    { destruct Hperm as [E|E]; [|exact E].
      rewrite E in Hsorted. apply sorted_wrtb_spec in Hsorted.
      vm_compute in Hsorted. discriminate. }
    split; [exact Hobjs|]. rewrite Hobjs. intros Hs.
    apply sorted_wrtb_spec in Hs. vm_compute in Hs. discriminate.
Qed.

Lemma sortByThreatLevel_orders_by_collision_time_witness :
  ~ sorted_wrt Comparators.byThreatLevel [objZ 1 100 (-50); objZ 2 10 (-2)].
Proof.
  refine (proj2 (proj2 sortByThreatLevel_orders_by_collision_time
                   {| objects_ := [objZ 1 100 (-50); objZ 2 10 (-2)] |} _)).
  split; [apply perm_swap | sorted_by_computation].
Defined.

(** The other definition of the member, which passes the threat-level
    comparator, leaves the same two objects in the opposite order. *)
Lemma sortByThreatLevel_closure_on_crossing (t' : AEBObjectTracker) :
  sortByThreatLevel_closure crossing t' ->
  objects_ t' = [objZ 2 10 (-2); objZ 1 100 (-50)].
Proof.
  intros [Hperm Hsorted]. simpl in Hperm.
  apply Permutation_length_2_inv in Hperm. destruct Hperm as [E|E]; [exact E|].
  rewrite E in Hsorted. apply sorted_wrtb_spec in Hsorted.
  vm_compute in Hsorted. discriminate.
Qed.

(** ** Rounding: shifting, and what it does to a bound by a power of two *)

Lemma iter_pos_invariant {A : Type} (f : A -> A) (n : positive) :
  forall (P : Z -> A -> Prop),
    (forall k y, 0 <= k -> P k y -> P (k + 1) (f y)) ->
    forall x, P 0 x -> P (Zpos n) (iter_pos f n x).
Proof.
  induction n as [n IH | n IH |]; intros P Hstep x Hx; simpl.
  - replace (Zpos n~1) with (Zpos n + (Zpos n + 1)) by lia.
    apply (IH (fun k y => P (k + (Zpos n + 1)) y)).
    + intros k y Hk Hy. replace (k + 1 + (Zpos n + 1)) with (k + (Zpos n + 1) + 1) by lia.
      apply Hstep; [lia | exact Hy].
    + apply (IH (fun k y => P (k + 1) y)).
      * intros k y Hk Hy. apply Hstep; [lia | exact Hy].
      * apply (Hstep 0 x); [lia | exact Hx].
  - replace (Zpos n~0) with (Zpos n + Zpos n) by lia.
    apply (IH (fun k y => P (k + Zpos n) y)).
    + intros k y Hk Hy. replace (k + 1 + Zpos n) with (k + Zpos n + 1) by lia.
      apply Hstep; [lia | exact Hy].
    + apply (IH P Hstep x Hx).
  - apply (Hstep 0 x); [lia | exact Hx].
Qed.

Lemma shr_1_m (mrs : shr_record) :
  0 <= shr_m mrs -> shr_m (shr_1 mrs) = shr_m mrs / 2.
Proof.
  destruct mrs as [m r s]. simpl. intros Hm. rewrite <- Z.div2_div.
  destruct m as [|p|p]; [reflexivity | destruct p; reflexivity | lia].
Qed.

Lemma shr_1_inexact (mrs : shr_record) :
  0 <= shr_m mrs -> inexact (shr_1 mrs) = Z.odd (shr_m mrs) || inexact mrs.
Proof.
  destruct mrs as [m r s]. unfold inexact. simpl. intros Hm.
  destruct m as [|p|p]; [reflexivity | destruct p; reflexivity | lia].
Qed.

Lemma shr_iter (n : positive) (mrs : shr_record) :
  0 <= shr_m mrs ->
  shr_m (iter_pos shr_1 n mrs) = shr_m mrs / 2 ^ Zpos n /\
  (inexact mrs = false -> shr_m mrs mod 2 ^ Zpos n = 0 ->
   inexact (iter_pos shr_1 n mrs) = false).
Proof.
  intros Hm.
  apply (iter_pos_invariant shr_1 n
           (fun k y => shr_m y = shr_m mrs / 2 ^ k /\
                       (inexact mrs = false -> shr_m mrs mod 2 ^ k = 0 ->
                        inexact y = false))).
  - intros k y Hk [Hy Hex].
    assert (Hpow : 0 < 2 ^ k) by (apply Z.pow_pos_nonneg; lia).
    assert (Hy0 : 0 <= shr_m y) by (rewrite Hy; apply Z.div_pos; lia).
    assert (Hpk : 2 ^ (k + 1) = 2 ^ k * 2) by (rewrite Z.pow_add_r; lia).
    split.
    + rewrite (shr_1_m y Hy0), Hy, Z.div_div, Hpk by lia. reflexivity.
    + intros Hin Hmod. rewrite (shr_1_inexact y Hy0).
      apply Zmod_divides in Hmod; [|lia]. destruct Hmod as [c Hc].
      rewrite Hpk in Hc.
      assert (Hq : shr_m y = 2 * c).
      { rewrite Hy, Hc. replace (2 ^ k * 2 * c) with (2 * c * 2 ^ k) by lia.
        apply Z.div_mul. lia. }
      rewrite Hex; auto.
      * rewrite Hq, Z.odd_mul. reflexivity.
      * rewrite Hc. replace (2 ^ k * 2 * c) with ((2 * c) * 2 ^ k) by lia.
        apply Z.mod_mul. lia.
  - split; [now rewrite Z.div_1_r | auto].
Qed.

Lemma loc_of_shr_record_of_loc (m : Z) (l : location) :
  loc_of_shr_record (shr_record_of_loc m l) = l.
Proof. destruct l as [|[]]; reflexivity. Qed.

Lemma shr_m_shr_record_of_loc (m : Z) (l : location) :
  shr_m (shr_record_of_loc m l) = m.
Proof. destruct l as [|[]]; reflexivity. Qed.

Lemma inexact_shr_record_of_loc (m : Z) (l : location) :
  inexact (shr_record_of_loc m l) = false <-> l = loc_Exact.
Proof. destruct l as [|[]]; unfold inexact; simpl; split; congruence. Qed.

Lemma slack_loc_of_shr_record (mrs : shr_record) :
  slack (loc_of_shr_record mrs) = if inexact mrs then 1 else 0.
Proof. destruct mrs as [m [] []]; reflexivity. Qed.

Lemma digits2_pos_size (p : positive) : digits2_pos p = Pos.size p.
Proof. induction p; simpl; congruence. Qed.

Lemma Zdigits2_bound (p : positive) : 2 ^ (Zdigits2 (Zpos p) - 1) <= Zpos p.
Proof.
  change (Zdigits2 (Zpos p)) with (Zpos (digits2_pos p)).
  rewrite digits2_pos_size.
  pose proof (Pos.size_le p) as H.
  assert (Hz : 2 ^ Zpos (Pos.size p) <= 2 * Zpos p).
  { rewrite <- (Pos2Z.inj_pow 2 (Pos.size p)).
    change (2 * Zpos p) with (Zpos p~0). apply Pos2Z.pos_le_pos. exact H. }
  clear H. pose proof (Pos2Z.is_pos (Pos.size p)) as Hd.
  set (d := Zpos (Pos.size p)) in *. clearbody d.
  replace d with (d - 1 + 1) in Hz by ring.
  rewrite Z.pow_add_r, Z.pow_1_r in Hz by lia. lia.
Qed.

(** A nonnegative mantissa bounded by [2 ^ (k - e)] is shifted to an
    exponent that is at most [k - 23]. *)
Lemma fexp_bound (k m e : Z) :
  -126 <= k -> 0 <= m -> e <= k - 23 -> m <= 2 ^ (k - e) ->
  fexp F32.prec F32.emax (Zdigits2 m + e) <= k - 23.
Proof.
  intros Hk Hm He Hb. unfold fexp, emin, F32.prec, F32.emax.
  destruct m as [|p|p]; [simpl; lia | | lia].
  pose proof (Zdigits2_bound p) as Hd.
  assert (Zdigits2 (Zpos p) - 1 <= k - e).
  { apply (proj2 (Z.pow_le_mono_r_iff 2 _ (k - e) ltac:(lia) ltac:(lia))). lia. }
  lia.
Qed.

Lemma shr_fexp_bound (k m e : Z) (l : location) :
  -126 <= k -> 0 <= m -> e <= k - 23 -> m + slack l <= 2 ^ (k - e) ->
  0 <= shr_m (fst (shr_fexp F32.prec F32.emax m e l)) /\
  snd (shr_fexp F32.prec F32.emax m e l) <= k - 23 /\
  shr_m (fst (shr_fexp F32.prec F32.emax m e l))
    + slack (loc_of_shr_record (fst (shr_fexp F32.prec F32.emax m e l)))
  <= 2 ^ (k - snd (shr_fexp F32.prec F32.emax m e l)).
Proof.
  intros Hk Hm He Hb.
  assert (Hsl : 0 <= slack l) by (destruct l; simpl; lia).
  pose proof (fexp_bound k m e Hk Hm He ltac:(lia)) as Hf.
  unfold shr_fexp, shr.
  remember (fexp F32.prec F32.emax (Zdigits2 m + e)) as fe eqn:Efe.
  destruct (fe - e) as [|n|n] eqn:En; simpl;
    rewrite ?shr_m_shr_record_of_loc, ?loc_of_shr_record_of_loc; try (repeat split; lia).
  destruct (shr_iter n (shr_record_of_loc m l)) as [Hdiv Hex];
    [rewrite shr_m_shr_record_of_loc; exact Hm|].
  rewrite shr_m_shr_record_of_loc in Hdiv, Hex.
  assert (Hpn : 0 < 2 ^ Zpos n) by (apply Z.pow_pos_nonneg; lia).
  assert (Hsplit : 2 ^ (k - e) = 2 ^ Zpos n * 2 ^ (k - (e + Zpos n))).
  { rewrite <- Z.pow_add_r by lia. f_equal. lia. }
  assert (Hpk : 0 < 2 ^ (k - (e + Zpos n))) by (apply Z.pow_pos_nonneg; lia).
  rewrite Hdiv, slack_loc_of_shr_record.
  split; [apply Z.div_pos; lia | split; [lia|]].
  assert (Hq : m / 2 ^ Zpos n <= 2 ^ (k - (e + Zpos n))).
  { apply Z.div_le_upper_bound; lia. }
  destruct (inexact (iter_pos shr_1 n (shr_record_of_loc m l))) eqn:Hin; [|lia].
  destruct (Z.eq_dec (m / 2 ^ Zpos n) (2 ^ (k - (e + Zpos n)))) as [Heq|Hne]; [|lia].
  exfalso.
  pose proof (Z.mul_div_le m (2 ^ Zpos n) Hpn) as Hle. rewrite Heq in Hle.
  assert (Hm' : m = 2 ^ Zpos n * 2 ^ (k - (e + Zpos n))) by lia.
  assert (Hl : l = loc_Exact) by (destruct l; [reflexivity | simpl in Hb; lia]).
  enough (Hfalse : true = false) by discriminate.
  apply Hex.
  - apply inexact_shr_record_of_loc. exact Hl.
  - rewrite Hm', Z.mul_comm. apply Z.mod_mul. lia.
Qed.

Lemma round_nearest_even_bound (m : Z) (l : location) :
  m <= round_nearest_even m l <= m + slack l.
Proof.
  destruct l as [|[]]; simpl; try lia. destruct (Z.even m); lia.
Qed.

(** The core: rounding a nonnegative quantity that is at most [2 ^ k] gives
    a float that is at most [2 ^ k]. *)
Lemma binary_round_aux_below_pow2 (k m e : Z) (l : location) :
  -126 <= k <= 127 -> 0 <= m -> e <= k - 23 -> m + slack l <= 2 ^ (k - e) ->
  below_pow2 k (binary_round_aux F32.prec F32.emax false m e l).
Proof.
  intros Hk Hm He Hb. unfold binary_round_aux.
  destruct (shr_fexp_bound k m e l ltac:(lia) Hm He Hb) as (H1 & H2 & H3).
  destruct (shr_fexp F32.prec F32.emax m e l) as [mrs1 e1]. simpl in H1, H2, H3.
  pose proof (round_nearest_even_bound (shr_m mrs1) (loc_of_shr_record mrs1)) as Hr.
  set (m2 := round_nearest_even (shr_m mrs1) (loc_of_shr_record mrs1)) in *.
  destruct (shr_fexp_bound k m2 e1 loc_Exact ltac:(lia) ltac:(lia) H2
              ltac:(simpl; lia)) as (H4 & H5 & H6).
  destruct (shr_fexp F32.prec F32.emax m2 e1 loc_Exact) as [mrs3 e3].
  simpl in H4, H5, H6.
  assert (Hs : 0 <= slack (loc_of_shr_record mrs3))
    by (destruct (loc_of_shr_record mrs3); simpl; lia).
  destruct (shr_m mrs3) as [|p|p]; [exact I | | lia].
  destruct (Z.leb_spec e3 (F32.emax - F32.prec)) as [Hle|Hgt].
  - simpl. split; lia.
  - unfold F32.emax, F32.prec in Hgt. lia.
Qed.

Lemma shr_fexp_nonneg (m e : Z) (l : location) :
  0 <= m -> 0 <= shr_m (fst (shr_fexp F32.prec F32.emax m e l)).
Proof.
  intros Hm. unfold shr_fexp, shr.
  destruct (fexp F32.prec F32.emax (Zdigits2 m + e) - e) as [|n|n]; simpl;
    rewrite ?shr_m_shr_record_of_loc; try exact Hm.
  destruct (shr_iter n (shr_record_of_loc m l)) as [Hdiv _];
    [rewrite shr_m_shr_record_of_loc; exact Hm|].
  rewrite Hdiv, shr_m_shr_record_of_loc. apply Z.div_pos; [exact Hm|].
  apply Z.pow_pos_nonneg; lia.
Qed.

(** Rounding a nonnegative quantity keeps the sign it is given and never
    produces a NaN. *)
Lemma binary_round_aux_sign (s : bool) (m e : Z) (l : location) :
  0 <= m -> has_sign s (binary_round_aux F32.prec F32.emax s m e l).
Proof.
  intros Hm. unfold binary_round_aux.
  pose proof (shr_fexp_nonneg m e l Hm) as H1.
  destruct (shr_fexp F32.prec F32.emax m e l) as [mrs1 e1]. simpl in H1.
  pose proof (round_nearest_even_bound (shr_m mrs1) (loc_of_shr_record mrs1)) as Hr.
  set (m2 := round_nearest_even (shr_m mrs1) (loc_of_shr_record mrs1)) in *.
  pose proof (shr_fexp_nonneg m2 e1 loc_Exact ltac:(lia)) as H2.
  destruct (shr_fexp F32.prec F32.emax m2 e1 loc_Exact) as [mrs3 e3]. simpl in H2.
  destruct (shr_m mrs3) as [|p|p]; [reflexivity | | lia].
  destruct (e3 <=? F32.emax - F32.prec); reflexivity.
Qed.

Lemma binary_round_sign (s : bool) (p : positive) (e : Z) :
  has_sign s (binary_round F32.prec F32.emax s p e).
Proof.
  unfold binary_round. destruct (shl_align p e _) as [mz ez].
  apply binary_round_aux_sign. lia.
Qed.

Lemma iter_xO (p d : positive) : Zpos (Pos.iter xO p d) = Zpos p * 2 ^ Zpos d.
Proof.
  induction d as [|d IH] using Pos.peano_ind.
  - simpl. lia.
  - rewrite Pos.iter_succ, Pos2Z.inj_succ.
    rewrite Z.pow_succ_r by apply Pos2Z.is_nonneg.
    rewrite Pos2Z.inj_xO, IH. ring.
Qed.

Lemma shl_align_value (m : positive) (e e' : Z) :
  e' <= e -> Zpos (fst (shl_align m e e')) = Zpos m * 2 ^ (e - e').
Proof.
  intros Hle. unfold shl_align. destruct (e' - e) as [|d|d] eqn:Hd; cbn [fst].
  - replace (e - e') with 0 by lia. rewrite Z.pow_0_r. lia.
  - lia.
  - rewrite iter_xO. f_equal. f_equal. lia.
Qed.

Lemma binary_round_below_pow2 (k : Z) (p : positive) (e : Z) :
  -126 <= k <= 127 -> e <= k - 23 -> Zpos p <= 2 ^ (k - e) ->
  below_pow2 k (binary_round F32.prec F32.emax false p e).
Proof.
  intros Hk He Hb. unfold binary_round.
  pose proof (fexp_bound k (Zpos p) e ltac:(lia) ltac:(lia) He Hb) as Hf.
  change (Zdigits2 (Zpos p)) with (Zpos (digits2_pos p)) in Hf.
  set (fe := fexp F32.prec F32.emax (Zpos (digits2_pos p) + e)) in *.
  unfold shl_align. destruct (fe - e) as [|d|d] eqn:Hd.
  - apply binary_round_aux_below_pow2; simpl; lia.
  - apply binary_round_aux_below_pow2; simpl; lia.
  - apply binary_round_aux_below_pow2; try lia.
    simpl. rewrite iter_xO.
    replace (k - fe) with ((k - e) + Zpos d) by lia.
    rewrite Z.pow_add_r by lia.
    assert (0 < 2 ^ Zpos d) by (apply Z.pow_pos_nonneg; lia). nia.
Qed.

(** ** Division *)

Lemma slack_new_location (nb r : Z) :
  slack (new_location nb r) = if r =? 0 then 0 else 1.
Proof.
  unfold new_location, new_location_even, new_location_odd.
  destruct (Z.even nb), (r =? 0); reflexivity.
Qed.

Lemma SFdiv_core_binary_spec (m1 m2 : positive) (e1 e2 : Z) :
  exists q e' l s r,
    SFdiv_core_binary F32.prec F32.emax (Zpos m1) e1 (Zpos m2) e2 = (q, e', l) /\
    0 <= s /\ e' = e1 - e2 - s /\
    e' <= fexp F32.prec F32.emax
            (Zdigits2 (Zpos m1) + e1 - (Zdigits2 (Zpos m2) + e2)) /\
    Zpos m1 * 2 ^ s = Zpos m2 * q + r /\ 0 <= r < Zpos m2 /\
    slack l = (if r =? 0 then 0 else 1).
Proof.
  unfold SFdiv_core_binary.
  set (fe := fexp F32.prec F32.emax
               (Zdigits2 (Zpos m1) + e1 - (Zdigits2 (Zpos m2) + e2))).
  set (e' := Z.min fe (e1 - e2)).
  assert (Hs : 0 <= e1 - e2 - e') by (unfold e'; lia).
  set (m' := match e1 - e2 - e' with
             | 0 => Zpos m1
             | Zpos _ => Z.shiftl (Zpos m1) (e1 - e2 - e')
             | Zneg _ => 0
             end).
  assert (Hm' : m' = Zpos m1 * 2 ^ (e1 - e2 - e')).
  { unfold m'. destruct (e1 - e2 - e') as [|s|s] eqn:Es.
    - simpl. lia.
    - apply Z.shiftl_mul_pow2. lia.
    - lia. }
  pose proof (Z_div_mod m' (Zpos m2) ltac:(lia)) as Hdm.
  destruct (Z.div_eucl m' (Zpos m2)) as [q r]. destruct Hdm as [Heq Hr].
  exists q, e', (new_location (Zpos m2) r), (e1 - e2 - e'), r.
  repeat split; try lia. apply slack_new_location.
Qed.

Lemma div_finite_sign (sx sy : bool) (mx my : positive) (ex ey : Z) :
  has_sign (xorb sx sy) (F32.div (S754_finite sx mx ex) (S754_finite sy my ey)).
Proof.
  unfold F32.div, SFdiv.
  destruct (SFdiv_core_binary_spec mx my ex ey)
    as (q & e' & l & s & r & -> & Hs & _ & _ & Heq & Hr & _).
  apply binary_round_aux_sign.
  assert (0 <= Zpos mx * 2 ^ s) by (apply Z.mul_nonneg_nonneg; [lia | apply Z.pow_nonneg; lia]).
  nia.
Qed.

(** Halving a float that is at most two gives a float that is at most one. *)
Lemma div_c2_below (x : float) :
  below_pow2 1 x -> below_pow2 0 (F32.div x F32.c2).
Proof.
  destruct x as [[] | [] | | [] m e]; unfold below_pow2 at 1; intros Hx;
    try contradiction; [exact I|].
  destruct Hx as [He Hb]. unfold F32.div, F32.c2, SFdiv.
  destruct (SFdiv_core_binary_spec m 8388608 e (-22))
    as (q & e' & l & s & r & -> & Hs & He' & Hfe & Heq & Hr & Hl).
  pose proof (Zdigits2_bound m) as Hd.
  assert (Hdig : Zdigits2 (Zpos m) - 1 <= 1 - e).
  { apply (proj2 (Z.pow_le_mono_r_iff 2 _ (1 - e) ltac:(lia) ltac:(lia))). lia. }
  change (Zdigits2 (Zpos 8388608)) with 24 in Hfe.
  unfold fexp, emin, F32.prec, F32.emax in Hfe.
  assert (Hq0 : 0 <= q).
  { assert (0 <= Zpos m * 2 ^ s)
      by (apply Z.mul_nonneg_nonneg; [lia | apply Z.pow_nonneg; lia]).
    nia. }
  apply binary_round_aux_below_pow2; try lia.
  rewrite Hl.
  assert (Hup : Zpos m * 2 ^ s <= 8388608 * 2 ^ (0 - e')).
  { replace (0 - e') with ((1 - e) + s - 23) by lia.
    assert (Hp : 2 ^ (1 - e + s) = 2 ^ 23 * 2 ^ (1 - e + s - 23)).
    { rewrite <- Z.pow_add_r by lia. f_equal. lia. }
    change (2 ^ 23) with 8388608 in Hp. rewrite <- Hp.
    rewrite Z.pow_add_r by lia.
    apply Z.mul_le_mono_nonneg_r; [apply Z.pow_nonneg; lia | exact Hb]. }
  destruct (Z.eqb_spec r 0); lia.
Qed.

(** ** The two factors, their sum and its half *)

Lemma below_pow2_c1 : below_pow2 0 F32.c1.
Proof. unfold below_pow2, F32.c1. split; [lia | vm_compute; discriminate]. Qed.

Lemma sub_c1_cases (q : float) :
  has_sign false q ->
  below_pow2 0 (F32.sub F32.c1 q) \/ has_sign true (F32.sub F32.c1 q).
Proof.
  destruct q as [s | s | | s mq eq]; unfold has_sign at 1; intros Hs;
    try contradiction; subst s.
  - left. exact below_pow2_c1.
  - right. reflexivity.
  - unfold F32.sub, F32.c1, SFsub, cond_Zopp.
    set (ez := Z.min (-23) eq).
    assert (Hez : ez <= -23) by (unfold ez; lia).
    assert (Hez' : ez <= eq) by (unfold ez; lia).
    rewrite (shl_align_value 8388608 (-23) ez Hez).
    pose proof (Pos2Z.is_pos (fst (shl_align mq eq ez))) as HB.
    set (B := Zpos (fst (shl_align mq eq ez))) in *.
    assert (HA : 8388608 * 2 ^ (-23 - ez) = 2 ^ (0 - ez)).
    { change 8388608 with (2 ^ 23). rewrite <- Z.pow_add_r by lia. f_equal. lia. }
    rewrite HA.
    destruct (2 ^ (0 - ez) - B) as [|p|p] eqn:Hd; unfold binary_normalize.
    + left. exact I.
    + left. apply binary_round_below_pow2; lia.
    + right. apply binary_round_sign.
Qed.

Lemma max_c0_below (x : float) :
  below_pow2 0 x \/ has_sign true x \/ x = S754_nan ->
  below_pow2 0 (F32.max F32.c0 x).
Proof.
  unfold F32.max. intros [Hx | [Hx | ->]].
  - destruct (F32.ltb F32.c0 x); [exact Hx | exact I].
  - destruct x as [s | s | | s m e]; unfold has_sign in Hx; try contradiction;
      subst s; exact I.
  - exact I.
Qed.

Lemma factor_below (x : float) :
  has_sign false x \/ x = S754_nan ->
  below_pow2 0 (F32.max F32.c0 (F32.sub F32.c1 x)).
Proof.
  intros [Hx | ->]; apply max_c0_below.
  - destruct (sub_c1_cases x Hx); auto.
  - right. right. reflexivity.
Qed.

Lemma add_below (x y : float) :
  below_pow2 0 x -> below_pow2 0 y -> below_pow2 1 (F32.add x y).
Proof.
  destruct x as [[] | [] | | [] mx ex]; unfold below_pow2 at 1; intros Hx;
    try contradiction;
    destruct y as [[] | [] | | [] my ey]; unfold below_pow2 at 1; intros Hy;
    try contradiction.
  - exact I.
  - destruct Hy as [He Hb]. split; [lia|].
    replace (1 - ey) with (1 + (0 - ey)) by lia. rewrite Z.pow_add_r by lia.
    change (2 ^ 1) with 2. lia.
  - destruct Hx as [He Hb]. split; [lia|].
    replace (1 - ex) with (1 + (0 - ex)) by lia. rewrite Z.pow_add_r by lia.
    change (2 ^ 1) with 2. lia.
  - destruct Hx as [Hex Hbx], Hy as [Hey Hby].
    unfold F32.add, SFadd, cond_Zopp.
    set (ez := Z.min ex ey).
    assert (Hzx : ez <= ex) by (unfold ez; lia).
    assert (Hzy : ez <= ey) by (unfold ez; lia).
    pose proof (shl_align_value mx ex ez Hzx) as Hax.
    pose proof (shl_align_value my ey ez Hzy) as Hay.
    set (a := fst (shl_align mx ex ez)) in *.
    set (b := fst (shl_align my ey ez)) in *.
    change (Zpos a + Zpos b) with (Zpos (a + b)). unfold binary_normalize.
    apply binary_round_below_pow2; try lia.
    rewrite Pos2Z.inj_add, Hax, Hay.
    assert (Hpx : 2 ^ (0 - ex) * 2 ^ (ex - ez) = 2 ^ (0 - ez)).
    { rewrite <- Z.pow_add_r by lia. f_equal. lia. }
    assert (Hpy : 2 ^ (0 - ey) * 2 ^ (ey - ez) = 2 ^ (0 - ez)).
    { rewrite <- Z.pow_add_r by lia. f_equal. lia. }
    assert (H1 : Zpos mx * 2 ^ (ex - ez) <= 2 ^ (0 - ez)).
    { rewrite <- Hpx. apply Z.mul_le_mono_nonneg_r; [apply Z.pow_nonneg; lia | exact Hbx]. }
    assert (H2 : Zpos my * 2 ^ (ey - ez) <= 2 ^ (0 - ez)).
    { rewrite <- Hpy. apply Z.mul_le_mono_nonneg_r; [apply Z.pow_nonneg; lia | exact Hby]. }
    replace (1 - ez) with (1 + (0 - ez)) by lia. rewrite Z.pow_add_r by lia.
    change (2 ^ 1) with 2. lia.
Qed.

Lemma below_pow2_unit (x : float) : below_pow2 0 x -> in_unit_range x.
Proof.
  destruct x as [[] | [] | | [] m e]; unfold below_pow2; intros Hx;
    try contradiction.
  - split; reflexivity.
  - destruct Hx as [He Hb]. split; [reflexivity|].
    unfold F32.leb, SFleb, SFcompare, F32.c1.
    destruct (Z.compare_spec e (-23)) as [Heq | Hlt | Hgt]; [| reflexivity | lia].
    subst e. change (2 ^ (0 - -23)) with 8388608 in Hb.
    change (Pos.compare_cont Eq m 8388608) with (Pos.compare m 8388608).
    destruct (Pos.compare_spec m 8388608); [reflexivity | reflexivity | lia].
Qed.

Lemma negative_ltb_c1 (t : float) : has_sign true t -> F32.ltb t F32.c1 = true.
Proof.
  destruct t as [s | s | | s m e]; unfold has_sign; intros Hs; try contradiction;
    subst s; reflexivity.
Qed.

(** In the branch that averages the two factors the collision time is a
    NaN or a positive number. *)
Lemma middle_branch_time (t : float) :
  F32.gtb t F32.c10 = false -> F32.ltb t F32.c1 = false ->
  t = S754_nan \/ exists m e, t = S754_finite false m e.
Proof.
  destruct t as [s | s | | s m e]; intros Hg Hl.
  - discriminate Hl.
  - destruct s; [discriminate Hl | discriminate Hg].
  - now left.
  - destruct s; [discriminate Hl | right; eauto].
Qed.

Lemma time_factor_below (t : float) :
  F32.gtb t F32.c10 = false -> F32.ltb t F32.c1 = false ->
  below_pow2 0 (F32.max F32.c0 (F32.sub F32.c1 (F32.div t F32.c10))).
Proof.
  intros Hg Hl. apply factor_below.
  destruct (middle_branch_time t Hg Hl) as [-> | (m & e & ->)].
  - right. reflexivity.
  - left. apply (div_finite_sign false false).
Qed.

Lemma distance_factor_below (dist rel_vel : float) :
  ~ (dist = F32.neg_infinity /\ rel_vel = F32.neg_infinity) ->
  F32.gtb (timeToCollision dist rel_vel) F32.c10 = false ->
  F32.ltb (timeToCollision dist rel_vel) F32.c1 = false ->
  below_pow2 0 (F32.max F32.c0 (F32.sub F32.c1 (F32.div dist F32.c100))).
Proof.
  intros Hnot Hg Hl.
  assert (Hneg : forall t, timeToCollision dist rel_vel = t -> has_sign true t -> False).
  { intros t Ht Hs. rewrite Ht in Hl. rewrite (negative_ltb_c1 t Hs) in Hl. discriminate. }
  destruct dist as [sd | sd | | sd md ed].
  - apply max_c0_below. left. destruct sd; exact below_pow2_c1.
  - destruct sd.
    + exfalso. unfold timeToCollision in *.
      destruct rel_vel as [sv | sv | | sv mv ev];
        try (simpl in Hg; discriminate Hg).
      * destruct sv; [apply Hnot; split; reflexivity | simpl in Hg; discriminate Hg].
      * destruct sv; [|simpl in Hg; discriminate Hg].
        destruct (F32.ltb (S754_finite true mv ev) (F32.opp F32.c0_1));
          [simpl in Hl; discriminate Hl | simpl in Hg; discriminate Hg].
    + apply max_c0_below. right. left. reflexivity.
  - apply max_c0_below. right. right. reflexivity.
  - destruct sd.
    + exfalso. unfold timeToCollision in *.
      destruct (F32.ltb rel_vel (F32.opp F32.c0_1)) eqn:Hv;
        [|simpl in Hg; discriminate Hg].
      destruct rel_vel as [sv | sv | | sv mv ev]; try discriminate Hv.
      * destruct sv; [simpl in Hl; discriminate Hl | discriminate Hv].
      * destruct sv; [|discriminate Hv].
        apply (Hneg _ eq_refl). apply (div_finite_sign true false).
    + apply factor_below. left. apply (div_finite_sign false false).
Qed.

(** The range does not hold for every input: constructed from a distance
    and a relative velocity that are both negative infinity, an object has
    a NaN collision time, a distance factor of [+infinity] and with it a
    threat level of [+infinity]. *)
Lemma threatLevel_out_of_range :
  ~ (forall (obj_id : Z) (dist rel_vel : float),
       in_unit_range (getThreatLevel (mkDetectedObject obj_id dist rel_vel))).
Proof.
  intros Hclaim.
  destruct (Hclaim 1 F32.neg_infinity F32.neg_infinity) as [_ H].
  vm_compute in H. discriminate.
Qed.

(** Claim C4, evaluated on the code.  The threat level of every constructed
    object is the piecewise function of its collision time and distance.
    It lies in [[0.0, 1.0]], the range the class documents for it, for
    every pair of inputs but one, negative, infinite and NaN inputs
    included.  The one pair is a distance and a relative velocity that are
    both negative infinity: the collision time is then a NaN, which neither
    guard of [calculateThreatLevel] catches, the distance factor is
    [+infinity], and the threat level is [+infinity], outside the range. *)
Theorem threatLevel_range (obj_id : Z) (dist rel_vel : float) :
  getThreatLevel (mkDetectedObject obj_id dist rel_vel)
  = threatLevelSpec dist (getCollisionTime (mkDetectedObject obj_id dist rel_vel))
  /\ (~ (dist = F32.neg_infinity /\ rel_vel = F32.neg_infinity) ->
      in_unit_range (getThreatLevel (mkDetectedObject obj_id dist rel_vel)))
  /\ (dist = F32.neg_infinity /\ rel_vel = F32.neg_infinity ->
      F32.isnan (getCollisionTime (mkDetectedObject obj_id dist rel_vel)) = true /\
      getThreatLevel (mkDetectedObject obj_id dist rel_vel) = F32.infinity /\
      ~ in_unit_range (getThreatLevel (mkDetectedObject obj_id dist rel_vel))).
Proof.
  split; [reflexivity|]. split.
  - intros Hnot.
    unfold getThreatLevel, mkDetectedObject, threat_level_, calculateThreatLevel.
    destruct (F32.gtb (timeToCollision dist rel_vel) F32.c10) eqn:Hg;
      [split; reflexivity|].
    destruct (F32.ltb (timeToCollision dist rel_vel) F32.c1) eqn:Hl;
      [split; reflexivity|].
    apply below_pow2_unit, div_c2_below, add_below.
    + exact (distance_factor_below dist rel_vel Hnot Hg Hl).
    + exact (time_factor_below _ Hg Hl).
  - intros [-> ->]. split; [reflexivity|]. split; [reflexivity|].
    intros [_ H]. vm_compute in H. discriminate H.
Qed.

Lemma threatLevel_range_witness :
  in_unit_range (getThreatLevel (objZ 7 (-40) (-8))) /\
  in_unit_range (getThreatLevel (objZ 1 50 (-10))) /\
  getThreatLevel (mkDetectedObject 1 F32.neg_infinity F32.neg_infinity) = F32.infinity.
Proof.
  split; [|split].
  - apply (proj1 (proj2 (threatLevel_range 7 (F32.of_Z (-40)) (F32.of_Z (-8))))).
    intros [H _]. vm_compute in H. discriminate H.
  - apply (proj1 (proj2 (threatLevel_range 1 (F32.of_Z 50) (F32.of_Z (-10))))).
    intros [H _]. vm_compute in H. discriminate H.
  - apply (proj2 (proj2 (threatLevel_range 1 F32.neg_infinity F32.neg_infinity))).
    split; reflexivity.
Defined.

(** ** Instruction parsing *)

Module RobotNavFacts.
Import RobotNav.

Lemma append_empty_r (s : string) : (s ++ EmptyString)%string = s.
Proof. induction s as [|c s IH]; simpl; [reflexivity | now rewrite IH]. Qed.

Lemma append_snoc (s t : string) (c : ascii) :
  ((s ++ String c EmptyString) ++ t)%string = (s ++ String c t)%string.
Proof. induction s as [|d s IH]; simpl; [reflexivity | now rewrite IH]. Qed.

Lemma split_commas_nonempty (s : string) : split_commas s <> [].
Proof.
  destruct s as [|c r]; simpl; [discriminate|].
  destruct (Ascii.eqb c ","); [discriminate|].
  destruct (split_commas r); discriminate.
Qed.

Lemma bind_bind {T U V : Type} (r : result T) (f : T -> result U) (g : U -> result V) :
  bind (bind r f) g = bind r (fun x => bind (f x) g).
Proof. destruct r; reflexivity. Qed.

Lemma bind_ext {T U : Type} (r : result T) (f g : T -> result U) :
  (forall x, f x = g x) -> bind r f = bind r g.
Proof. intros H. destruct r; simpl; [apply H | reflexivity]. Qed.

Lemma parseLoop_tokens (input : string) :
  forall (instructions : list Instruction) (current_token : string),
    parseLoop input instructions current_token
    = bind (parseTokens (glue current_token (tokens input)))
           (fun more => Ok (instructions ++ more)).
Proof.
  unfold tokens. induction input as [|c rest IH]; intros instructions current_token.
  - simpl. rewrite append_empty_r.
    destruct current_token as [|c0 r0]; simpl.
    + now rewrite app_nil_r.
    + destruct (stoi r0); reflexivity.
  - simpl. destruct (Ascii.eqb c ",") eqn:Hcomma.
    + apply Ascii.eqb_eq in Hcomma. subst c. simpl. rewrite append_empty_r.
      destruct current_token as [|c0 r0]; simpl.
      * rewrite IH. destruct (split_commas (strip_spaces rest)) eqn:E;
          [now apply split_commas_nonempty in E | reflexivity].
      * rewrite !bind_bind. apply bind_ext. intros steps. simpl.
        rewrite IH.
        assert (Hglue : glue EmptyString (split_commas (strip_spaces rest))
                        = split_commas (strip_spaces rest)).
        { destruct (split_commas (strip_spaces rest)) eqn:E;
            [now apply split_commas_nonempty in E | reflexivity]. }
        rewrite Hglue. rewrite !bind_bind. apply bind_ext. intros more. simpl.
        now rewrite <- app_assoc.
    + destruct (Ascii.eqb c " ") eqn:Hspace; simpl.
      * apply IH.
      * rewrite Hcomma. rewrite IH.
        destruct (split_commas (strip_spaces rest)) as [|t ts] eqn:E;
          [now apply split_commas_nonempty in E|].
        simpl. now rewrite append_snoc.
Qed.

Lemma parseInstructions_tokens (input : string) :
  parseInstructions input = parseTokens (tokens input).
Proof.
  unfold parseInstructions. rewrite parseLoop_tokens.
  assert (Hglue : glue EmptyString (tokens input) = tokens input).
  { unfold tokens. destruct (split_commas (strip_spaces input)) eqn:E;
      [now apply split_commas_nonempty in E | reflexivity]. }
  rewrite Hglue. destruct (parseTokens (tokens input)); reflexivity.
Qed.

Lemma parseToken_throws (t : string) :
  is_empty t = false -> (throws (parseToken t) <-> rejected t).
Proof.
  destruct t as [|c rest]; [discriminate|]. intros _. simpl. unfold throws.
  destruct (stoi rest) as [n|e]; simpl; split.
  - intros [e He]. discriminate.
  - intros [e He]. discriminate.
  - intros _. now exists e.
  - intros _. now exists e.
Qed.

Lemma parseTokens_throws (toks : list string) :
  throws (parseTokens toks) <-> exists t, In t toks /\ rejected t.
Proof.
  induction toks as [|t ts IH]; simpl.
  - split; [intros [e He]; discriminate | intros [t [[] _]]].
  - destruct (is_empty t) eqn:Hempty.
    + rewrite IH. split.
      * intros [u [Hu Hr]]. exists u. auto.
      * intros [u [[<- | Hu] Hr]]; [|now exists u].
        destruct t; [destruct Hr | discriminate].
    + pose proof (parseToken_throws t Hempty) as Ht.
      destruct (parseToken t) as [i|e]; simpl.
      * destruct (parseTokens ts) as [more|e]; simpl.
        -- split; [intros [e He]; discriminate|].
           intros [u [[<- | Hu] Hr]].
           ++ apply Ht in Hr. destruct Hr as [e He]. discriminate.
           ++ assert (H : throws (@Ok (list Instruction) more))
                by (apply IH; now exists u).
              destruct H as [e He]. discriminate.
        -- split; [|intros _; now exists e].
           intros _. destruct (proj1 IH) as [u [Hu Hr]]; [now exists e|].
           exists u. auto.
      * split; [|intros _; now exists e].
        intros _. exists t. split; [now left|]. apply Ht. now exists e.
Qed.

End RobotNavFacts.

Import RobotNav.
Local Open Scope string_scope.

(** Claim C9, as stated, fails: a token with an unrecognized turn letter is
    read as a right turn, without any error. *)
Lemma parseInstructions_accepts_malformed_tokens :
  ~ (forall input : string,
       (exists t, In t (tokens input) /\ wellFormedToken t = false) ->
       throws (parseInstructions input)).
Proof.
  intros Hclaim.
  destruct (Hclaim "X2") as [e He].
  - exists "X2". split; [now left | reflexivity].
  - vm_compute in He. discriminate.
Qed.

Example parse_examples :
  parseInstructions "R2,L3,L1"
    = Ok [ {| turn_ := kRight; steps_ := 2 |}; {| turn_ := kLeft; steps_ := 3 |};
           {| turn_ := kLeft; steps_ := 1 |} ] /\
  parseInstructions " R2 , L3 , R1 "
    = Ok [ {| turn_ := kRight; steps_ := 2 |}; {| turn_ := kLeft; steps_ := 3 |};
           {| turn_ := kRight; steps_ := 1 |} ] /\
  parseInstructions "" = Ok [] /\
  parseInstructions "R2,,L3"
    = Ok [ {| turn_ := kRight; steps_ := 2 |}; {| turn_ := kLeft; steps_ := 3 |} ] /\
  parseInstructions "X2" = Ok [ {| turn_ := kRight; steps_ := 2 |} ] /\
  parseInstructions "R2,Lx" = Throw invalid_argument /\
  parseInstructions "R" = Throw invalid_argument /\
  parseInstructions "R99999999999" = Throw out_of_range.
Proof. repeat split; vm_compute; reflexivity. Qed.

(** Claim C9, amended.  [parseInstructions] converts the non-empty tokens
    left to right and passes over the empty ones; it leaves by the exception
    of the numeric conversion exactly when the text after the first
    character of some token is rejected by [std::stoi]; and a token whose
    first character is not [L] is read as a right turn. *)
Theorem parseInstructions_error_behaviour :
  (forall input, parseInstructions input = parseTokens (tokens input)) /\
  (forall input,
     throws (parseInstructions input) <->
     exists t, In t (tokens input) /\ rejected t) /\
  (forall (c : ascii) (rest : string) (n : Z),
     c <> "L"%char -> stoi rest = Ok n ->
     parseToken (String c rest) = Ok {| turn_ := kRight; steps_ := to_uint32 n |}).
Proof.
  split; [exact RobotNavFacts.parseInstructions_tokens | split].
  - intros input. rewrite RobotNavFacts.parseInstructions_tokens.
    apply RobotNavFacts.parseTokens_throws.
  - intros c rest n Hc Hn. simpl. rewrite Hn. simpl.
    apply Ascii.eqb_neq in Hc. now rewrite Hc.
Qed.

Lemma parseInstructions_error_behaviour_witness :
  parseToken "X2" = Ok {| turn_ := kRight; steps_ := 2 |}.
Proof.
  apply (proj2 (proj2 parseInstructions_error_behaviour) "X"%char "2" 2).
  - discriminate.
  - reflexivity.
Defined.

Local Close Scope string_scope.

(* ================================================================== *)
(** * Further properties of the tracker *)
(* ================================================================== *)

(** ** Looking an object up by its identifier *)

Lemma find_if_le {A : Type} (pred : A -> bool) (l : list A) :
  (find_if pred l <= length l)%nat.
Proof. induction l as [|x l IH]; simpl; [lia|]. destruct (pred x); lia. Qed.

Lemma find_if_end {A : Type} (pred : A -> bool) (l : list A) :
  find_if pred l = length l <-> forall x, In x l -> pred x = false.
Proof.
  induction l as [|x l IH]; simpl.
  - split; [intros _ x [] | reflexivity].
  - destruct (pred x) eqn:Hx; split.
    + discriminate.
    + intros H. rewrite (H x (or_introl eq_refl)) in Hx. discriminate.
    + intros H y [<- | Hy]; [exact Hx|]. apply IH; [lia | exact Hy].
    + intros H. f_equal. apply IH. intros y Hy. apply H. now right.
Qed.

Lemma find_if_found {A : Type} (pred : A -> bool) (l : list A) :
  (find_if pred l < length l)%nat ->
  exists x, nth_error l (find_if pred l) = Some x /\ pred x = true /\
            forall j y, (j < find_if pred l)%nat -> nth_error l j = Some y ->
                        pred y = false.
Proof.
  induction l as [|x l IH]; simpl; [lia|].
  destruct (pred x) eqn:Hx; intros Hlt.
  - exists x. repeat split; auto. intros j y Hj. lia.
  - destruct IH as (z & Hz & Hp & Hbefore); [lia|].
    exists z. repeat split; auto.
    intros [|j] y Hj Hy; simpl in Hy.
    + now injection Hy as <-.
    + apply (Hbefore j y); [lia | exact Hy].
Qed.

Lemma find_if_snoc {A : Type} (pred : A -> bool) (l : list A) (o : A) :
  find_if pred (l ++ [o])
  = if (find_if pred l <? length l)%nat then find_if pred l
    else if pred o then length l else S (length l).
Proof.
  induction l as [|x l IH]; simpl.
  - destruct (pred o); reflexivity.
  - destruct (pred x); [reflexivity|]. rewrite IH.
    change (S (find_if pred l) <? S (length l))%nat
      with (find_if pred l <? length l)%nat.
    destruct (find_if pred l <? length l)%nat; [reflexivity|].
    destruct (pred o); reflexivity.
Qed.

(** X1.  [findObjectById] returns an offset bounded by the number of
    objects; it returns that number, the end, exactly when no stored object
    has the identifier; and any smaller offset is that of the first stored
    object with the identifier. *)
Theorem findObjectById_spec (id : Z) (t : AEBObjectTracker) :
  (findObjectById id t <= size t)%nat /\
  (findObjectById id t = size t <->
     forall obj, In obj (objects_ t) -> getId obj <> id) /\
  ((findObjectById id t < size t)%nat ->
     exists obj, nth_error (objects_ t) (findObjectById id t) = Some obj /\
                 getId obj = id /\
                 forall j other, (j < findObjectById id t)%nat ->
                                 nth_error (objects_ t) j = Some other ->
                                 getId other <> id).
Proof.
  unfold findObjectById, size. split; [apply find_if_le | split].
  - rewrite find_if_end. split; intros H obj Hobj.
    + apply Z.eqb_neq. now apply H.
    + apply Z.eqb_neq. now apply H.
  - intros Hlt. destruct (find_if_found _ _ Hlt) as (obj & Hn & Hp & Hb).
    exists obj. split; [exact Hn | split].
    + now apply Z.eqb_eq.
    + intros j other Hj Ho. apply Z.eqb_neq. exact (Hb j other Hj Ho).
Qed.

Lemma findObjectById_spec_witness :
  exists obj, nth_error (objects_ scenario1) (findObjectById 4 scenario1) = Some obj /\
              getId obj = 4 /\
              forall j other, (j < findObjectById 4 scenario1)%nat ->
                              nth_error (objects_ scenario1) j = Some other ->
                              getId other <> 4.
Proof.
  apply (proj2 (proj2 (findObjectById_spec 4 scenario1))).
  vm_compute. lia.
Defined.

(** X2.  [addObject] stores one more object, after which a lookup of its
    identifier succeeds; when the identifier was not stored before, the
    lookup finds the added object itself, and lookups that succeeded before
    return the same offset (an earlier object with the same identifier
    hides the added one). *)
Theorem addObject_findObjectById (object : DetectedObject) (t : AEBObjectTracker) :
  size (addObject object t) = S (size t) /\
  (findObjectById (getId object) (addObject object t) < size (addObject object t))%nat /\
  (findObjectById (getId object) t = size t ->
     nth_error (objects_ (addObject object t))
               (findObjectById (getId object) (addObject object t)) = Some object) /\
  (forall id, (findObjectById id t < size t)%nat ->
     findObjectById id (addObject object t) = findObjectById id t).
Proof.
  unfold findObjectById, size, addObject. simpl.
  rewrite length_app. simpl. split; [apply Nat.add_1_r|].
  split; [|split].
  - rewrite find_if_snoc. unfold getId at 2. rewrite Z.eqb_refl.
    set (n := find_if _ (objects_ t)). clearbody n.
    destruct (Nat.ltb_spec n (length (objects_ t))); lia.
  - intros Hend. rewrite find_if_snoc, Hend, Nat.ltb_irrefl.
    unfold getId at 2. rewrite Z.eqb_refl.
    rewrite nth_error_app2 by lia. now rewrite Nat.sub_diag.
  - intros id Hlt. rewrite find_if_snoc.
    apply Nat.ltb_lt in Hlt. now rewrite Hlt.
Qed.

Lemma addObject_findObjectById_witness :
  findObjectById 4 (addObject (objZ 4 1 (-1)) scenario1) = findObjectById 4 scenario1.
Proof.
  apply (proj2 (proj2 (proj2 (addObject_findObjectById (objZ 4 1 (-1)) scenario1)))).
  vm_compute. lia.
Defined.

(** ** What a sorted tracker offers *)

Lemma sorted_wrt_nth {A : Type} (comp : A -> A -> bool) (l : list A) :
  sorted_wrt comp l ->
  forall i j x y, (i < j)%nat -> nth_error l i = Some x -> nth_error l j = Some y ->
                  comp y x = false.
Proof.
  unfold sorted_wrt. induction 1 as [|a l Hs IH Ha]; intros i j x y Hij Hx Hy.
  - destruct i; discriminate.
  - destruct j as [|j]; [lia|]. simpl in Hy. destruct i as [|i]; simpl in Hx.
    + injection Hx as <-. rewrite Forall_forall in Ha. apply Ha.
      eapply nth_error_In; eauto.
    + apply (IH i j); auto. lia.
Qed.

Lemma ltb_false_leb (x y : float) :
  F32.isnan x = false -> F32.isnan y = false ->
  F32.ltb y x = false -> F32.leb x y = true.
Proof.
  intros Hx Hy Hlt. apply leb_rank; auto. intros Hr.
  apply (ltb_rank y x Hy Hx) in Hr. congruence.
Qed.

Lemma leb_refl (x : float) : F32.isnan x = false -> F32.leb x x = true.
Proof. intros Hx. apply ltb_false_leb; auto. apply ltb_irrefl. Qed.

Lemma ordinary_infinite (o : DetectedObject) :
  ordinaryCollisionTime o -> F32.isinf (getCollisionTime o) = true ->
  getCollisionTime o = F32.infinity.
Proof.
  intros [_ Hneg] Hinf. destruct (getCollisionTime o) as [| [] | |];
    try discriminate; [now elim Hneg | reflexivity].
Qed.

(** No object is ordered before [x]: the collision time of [x] is the
    smaller one. *)
Lemma byCollisionTime_false_leb (x y : DetectedObject) :
  ordinaryCollisionTime x -> ordinaryCollisionTime y ->
  Comparators.byCollisionTime y x = false ->
  F32.leb (getCollisionTime x) (getCollisionTime y) = true.
Proof.
  intros Hx Hy. unfold Comparators.byCollisionTime.
  destruct (F32.isinf (getCollisionTime y)) eqn:Iy,
           (F32.isinf (getCollisionTime x)) eqn:Ix; simpl; intros Hc.
  - rewrite (ordinary_infinite x Hx Ix), (ordinary_infinite y Hy Iy). reflexivity.
  - rewrite (ordinary_infinite y Hy Iy). destruct Hx as [Hn _].
    destruct (getCollisionTime x) as [| [] | | [] ? ?]; try discriminate; reflexivity.
  - discriminate.
  - apply ltb_false_leb; [apply Hx | apply Hy | exact Hc].
Qed.

(** X3.  On objects that [Comparators::byCollisionTime] can order (no NaN
    collision time, no NaN distance beside an infinite one) and whose
    collision times are not negative infinity: after
    [partialSortCriticalObjects k], [getCriticalObjects k] returns
    [min k size] objects whose collision times never decrease from one
    place to a later one. *)
Theorem criticalObjects_collision_times_ordered
  (t t' : AEBObjectTracker) (k : nat) :
  Forall comparableByCollisionTime (objects_ t) ->
  Forall ordinaryCollisionTime (objects_ t) ->
  partialSortCriticalObjects k t t' ->
  length (getCriticalObjects k t') = Nat.min k (size t) /\
  forall i j x y, (i <= j)%nat ->
    nth_error (getCriticalObjects k t') i = Some x ->
    nth_error (getCriticalObjects k t') j = Some y ->
    F32.leb (getCollisionTime x) (getCollisionTime y) = true.
Proof.
  intros _ Hall Hpart. unfold partialSortCriticalObjects, empty in Hpart.
  unfold getCriticalObjects, size.
  destruct (objects_ t) as [|o os] eqn:Hobjs.
  - subst t'. rewrite Hobjs. simpl. rewrite Nat.min_0_r. split; [reflexivity|].
    intros i j x y _ Hx. destruct i; discriminate.
  - destruct Hpart as (Hperm & Hsorted & _).
    rewrite <- (Permutation_length Hperm) in *.
    set (n := Nat.min k (length (o :: os))) in *.
    split.
    + rewrite length_firstn, <- (Permutation_length Hperm). unfold n. lia.
    + assert (Hord : forall z, In z (firstn n (objects_ t')) -> ordinaryCollisionTime z).
      { intros z Hz. rewrite Forall_forall in Hall. apply Hall.
        apply (Permutation_in z (Permutation_sym Hperm)).
        now apply in_firstn in Hz. }
      intros i j x y Hij Hx Hy.
      assert (Ox : ordinaryCollisionTime x) by (apply Hord; eapply nth_error_In; eauto).
      assert (Oy : ordinaryCollisionTime y) by (apply Hord; eapply nth_error_In; eauto).
      destruct (Nat.eq_dec i j) as [-> | Hne].
      * rewrite Hx in Hy. injection Hy as <-. apply leb_refl, Ox.
      * apply byCollisionTime_false_leb; auto.
        apply (sorted_wrt_nth _ _ Hsorted i j); auto. lia.
Qed.

Lemma scenario1_ordinary : Forall ordinaryCollisionTime (objects_ scenario1).
Proof. repeat constructor; discriminate. Qed.

Lemma criticalObjects_collision_times_ordered_witness :
  length (getCriticalObjects 3 scenario1_top3) = Nat.min 3 (size scenario1).
Proof.
  exact (proj1 (criticalObjects_collision_times_ordered scenario1 scenario1_top3 3
                  scenario1_comparable scenario1_ordinary scenario1_partial)).
Defined.

(** ** Reordering keeps what the queries answer *)

Lemma any_of_perm {A : Type} (pred : A -> bool) (l l' : list A) :
  Permutation l l' -> any_of pred l = any_of pred l'.
Proof.
  induction 1 as [| x l l' _ IH | x y l | l l' l'' _ IH1 _ IH2]; simpl.
  - reflexivity.
  - now rewrite IH.
  - destruct (pred x), (pred y); reflexivity.
  - now rewrite IH1.
Qed.

Lemma filter_perm {A : Type} (pred : A -> bool) (l l' : list A) :
  Permutation l l' -> Permutation (filter pred l) (filter pred l').
Proof.
  induction 1 as [| x l l' _ IH | x y l | l l' l'' _ IH1 _ IH2]; simpl.
  - reflexivity.
  - destruct (pred x); [now apply perm_skip | exact IH].
  - destruct (pred x), (pred y); try reflexivity. apply perm_swap.
  - now rewrite IH1.
Qed.

Lemma find_if_lt_iff {A : Type} (pred : A -> bool) (l : list A) :
  (find_if pred l < length l)%nat <-> exists x, In x l /\ pred x = true.
Proof.
  split.
  - intros Hlt. destruct (find_if_found pred l Hlt) as (x & Hn & Hp & _).
    exists x. split; [eapply nth_error_In; eauto | exact Hp].
  - intros (x & Hin & Hp). pose proof (find_if_le pred l) as Hle.
    destruct (Nat.eq_dec (find_if pred l) (length l)) as [E|E]; [|lia].
    rewrite find_if_end in E. rewrite (E x Hin) in Hp. discriminate.
Qed.

(** X4.  On objects that [Comparators::byCollisionTime] can order (no NaN
    collision time, no NaN distance beside an infinite one), the sorting
    members only reorder: after [sortByCollisionTime], [sortByThreatLevel]
    or [partialSortCriticalObjects] the tracker has the same size,
    [hasCriticalObjects] answers the same for every threshold,
    [getObjectsWithinTimeThreshold] returns the same objects up to order,
    and [findObjectById] succeeds for the same identifiers. *)
Theorem sorting_preserves_queries (t t' : AEBObjectTracker) :
  Forall comparableByCollisionTime (objects_ t) ->
  sortByCollisionTime t t' \/ sortByThreatLevel t t' \/
  (exists k, partialSortCriticalObjects k t t') ->
  size t' = size t /\
  (forall threshold, hasCriticalObjects threshold t' = hasCriticalObjects threshold t) /\
  (forall threshold,
     Permutation (getObjectsWithinTimeThreshold threshold t)
                 (getObjectsWithinTimeThreshold threshold t')) /\
  (forall id, (findObjectById id t' < size t')%nat <-> (findObjectById id t < size t)%nat).
Proof.
  intros _ Hop.
  assert (Hperm : Permutation (objects_ t) (objects_ t')).
  { destruct Hop as [[Hp _] | [[Hp _] | [k Hk]]]; try exact Hp.
    unfold partialSortCriticalObjects in Hk.
    destruct (empty t); [now subst t' | apply Hk]. }
  unfold size, hasCriticalObjects, getObjectsWithinTimeThreshold, findObjectById.
  split; [symmetry; now apply Permutation_length | split; [|split]].
  - intros threshold. symmetry. now apply any_of_perm.
  - intros threshold. rewrite !copy_if_filter. now apply filter_perm.
  - intros id. rewrite !find_if_lt_iff. split; intros (x & Hin & Hp); exists x;
      (split; [|exact Hp]).
    + exact (Permutation_in x (Permutation_sym Hperm) Hin).
    + exact (Permutation_in x Hperm Hin).
Qed.

Lemma sorting_preserves_queries_witness :
  size scenario1_sorted = size scenario1.
Proof.
  exact (proj1 (sorting_preserves_queries scenario1 scenario1_sorted
                  scenario1_comparable (or_introl scenario1_sort))).
Defined.

(** ** The objects within a threshold lead a sorted tracker *)

Lemma filter_sorted_prefix {A : Type} (comp : A -> A -> bool) (pred : A -> bool)
  (l : list A) :
  sorted_wrt comp l ->
  (forall x y, In x l -> In y l -> comp y x = false -> pred y = true -> pred x = true) ->
  filter pred l = firstn (length (filter pred l)) l.
Proof.
  unfold sorted_wrt. induction 1 as [|a l Hs IH Ha]; intros Hclosed; simpl.
  - reflexivity.
  - assert (IHl : filter pred l = firstn (length (filter pred l)) l).
    { apply IH. intros x y Hx Hy. apply Hclosed; now right. }
    destruct (pred a) eqn:Hp; simpl; [now f_equal|].
    assert (Hnone : filter pred l = []).
    { destruct (filter pred l) as [|y r] eqn:Hf; [reflexivity|].
      assert (Hy : In y (filter pred l)) by (rewrite Hf; now left).
      apply filter_In in Hy as [Hy Hpy].
      rewrite Forall_forall in Ha.
      rewrite (Hclosed a y (or_introl eq_refl) (or_intror Hy) (Ha y Hy) Hpy) in Hp.
      discriminate. }
    now rewrite Hnone.
Qed.

Lemma withinTimeThreshold_closed (threshold : float) (x y : DetectedObject) :
  comparableByCollisionTime x ->
  Comparators.byCollisionTime y x = false ->
  withinTimeThreshold threshold y = true -> withinTimeThreshold threshold x = true.
Proof.
  unfold comparableByCollisionTime, collisionKey, withinTimeThreshold,
    Comparators.byCollisionTime.
  intros Hx Hc Hy. apply andb_true_iff in Hy as [Hfin Hle].
  apply negb_true_iff in Hfin. rewrite Hfin in Hc. simpl in Hc.
  destruct (F32.isinf (getCollisionTime x)) eqn:Ix; [discriminate|]. simpl.
  destruct (leb_true_not_nan _ _ Hle) as [Hny _].
  apply (leb_trans _ (getCollisionTime y)); [|exact Hle].
  apply ltb_false_leb; auto.
Qed.

(** X5.  After [sortByCollisionTime] on objects with comparable collision
    times, the objects [getObjectsWithinTimeThreshold] returns are exactly
    the leading objects of the tracker: they equal [getCriticalObjects] for
    their own number. *)
Theorem objectsWithinThreshold_lead_after_sort
  (t t' : AEBObjectTracker) (threshold : float) :
  Forall comparableByCollisionTime (objects_ t) ->
  sortByCollisionTime t t' ->
  getObjectsWithinTimeThreshold threshold t'
  = getCriticalObjects (length (getObjectsWithinTimeThreshold threshold t')) t'.
Proof.
  intros Hall [Hperm Hsorted].
  unfold getObjectsWithinTimeThreshold, getCriticalObjects.
  rewrite copy_if_filter.
  assert (Hle : (length (filter (withinTimeThreshold threshold) (objects_ t'))
                 <= length (objects_ t'))%nat) by apply filter_length_le.
  rewrite Nat.min_l by exact Hle.
  apply (filter_sorted_prefix Comparators.byCollisionTime); [exact Hsorted|].
  intros x y Hx _. apply withinTimeThreshold_closed.
  rewrite Forall_forall in Hall. apply Hall.
  exact (Permutation_in x (Permutation_sym Hperm) Hx).
Qed.

Lemma objectsWithinThreshold_lead_after_sort_witness :
  getObjectsWithinTimeThreshold (F32.of_Z 2) scenario1_sorted
  = getCriticalObjects
      (length (getObjectsWithinTimeThreshold (F32.of_Z 2) scenario1_sorted))
      scenario1_sorted.
Proof.
  exact (objectsWithinThreshold_lead_after_sort scenario1 scenario1_sorted (F32.of_Z 2)
           scenario1_comparable scenario1_sort).
Defined.

(** ** Partial sort with a bound beyond the size; sorting again *)

(** X6.  [partialSortCriticalObjects] leaves an empty tracker as it is;
    with a bound of at least the size it is a full [sortByCollisionTime];
    and every result of [sortByCollisionTime] is a result the partial sort
    may produce, whatever the bound. *)
Theorem partialSort_beyond_size (t t' : AEBObjectTracker) (k : nat) :
  (empty t = true -> partialSortCriticalObjects k t t' -> t' = t) /\
  ((size t <= k)%nat -> partialSortCriticalObjects k t t' -> sortByCollisionTime t t') /\
  (sortByCollisionTime t t' -> partialSortCriticalObjects k t t').
Proof.
  unfold partialSortCriticalObjects, sortByCollisionTime, size, empty.
  split; [|split].
  - intros He. rewrite He. auto.
  - intros Hk Hpart. destruct (objects_ t) as [|o os] eqn:Hobjs.
    + subst t'. rewrite Hobjs. split; [reflexivity | constructor].
    + destruct Hpart as (Hperm & Hsorted & _). split; [exact Hperm|].
      rewrite Nat.min_r in Hsorted by exact Hk.
      rewrite (Permutation_length Hperm), firstn_all in Hsorted. exact Hsorted.
  - intros Hsort. destruct (objects_ t) as [|o os] eqn:Hobjs.
    + destruct Hsort as [Hperm _]. apply Permutation_nil in Hperm.
      destruct t as [l], t' as [l']. simpl in *. congruence.
    + now apply std_sort_is_partial_sort.
Qed.

Lemma partialSort_beyond_size_witness :
  partialSortCriticalObjects 3 scenario1 scenario1_sorted.
Proof.
  exact (proj2 (proj2 (partialSort_beyond_size scenario1 scenario1_sorted 3))
           scenario1_sort).
Defined.

(** X7.  On objects that [Comparators::byCollisionTime] can order (no NaN
    collision time, no NaN distance beside an infinite one), sorting a
    sorted tracker again: the first result of [sortByCollisionTime] is
    itself a result of the second call, every other result of the second
    call agrees with it place by place up to ties, and without ties the
    second call changes nothing. *)
Theorem sortByCollisionTime_twice (t t1 t2 : AEBObjectTracker) :
  Forall comparableByCollisionTime (objects_ t) ->
  sortByCollisionTime t t1 ->
  sortByCollisionTime t1 t1 /\
  (sortByCollisionTime t1 t2 ->
     Forall2 (equiv_wrt Comparators.byCollisionTime) (objects_ t1) (objects_ t2) /\
     (no_ties Comparators.byCollisionTime (objects_ t) -> objects_ t2 = objects_ t1)).
Proof.
  intros Hall [Hperm Hsorted]. split; [split; [reflexivity | exact Hsorted]|].
  intros [Hperm2 Hsorted2].
  assert (Hswo : strict_weak_order_on Comparators.byCollisionTime (objects_ t))
    by now apply byCollisionTime_swo.
  assert (HF : Forall2 (equiv_wrt Comparators.byCollisionTime)
                       (objects_ t1) (objects_ t2)).
  { pose proof (Permutation_length Hperm) as L1.
    pose proof (Permutation_length Hperm2) as L2.
    rewrite <- (firstn_all2 (n := length (objects_ t)) (objects_ t1)) by lia.
    rewrite <- (firstn_all2 (n := length (objects_ t)) (objects_ t2)) by lia.
    apply (sort_partial_sort_prefix _ _ (objects_ t)); [exact Hswo | now split |].
    apply std_sort_is_partial_sort.
    split; [exact (Permutation_trans Hperm Hperm2) | exact Hsorted2]. }
  split; [exact HF|]. intros Hties. symmetry.
  apply (Forall2_equiv_eq _ (objects_ t) _ _ Hties); [| | exact HF].
  - intros z Hz. exact (Permutation_in z (Permutation_sym Hperm) Hz).
  - intros z Hz.
    exact (Permutation_in z (Permutation_sym (Permutation_trans Hperm Hperm2)) Hz).
Qed.

Lemma sortByCollisionTime_twice_witness :
  sortByCollisionTime scenario1_sorted scenario1_sorted.
Proof.
  exact (proj1 (sortByCollisionTime_twice scenario1 scenario1_sorted scenario1_sorted
                  scenario1_comparable scenario1_sort)).
Defined.

(** ** Critical objects and thresholds *)

Lemma any_of_app {A : Type} (pred : A -> bool) (l1 l2 : list A) :
  any_of pred (l1 ++ l2) = any_of pred l1 || any_of pred l2.
Proof.
  induction l1 as [|x l1 IH]; simpl; [reflexivity|]. now destruct (pred x).
Qed.

Lemma withinTimeThreshold_monotone (threshold threshold' : float) (obj : DetectedObject) :
  F32.leb threshold threshold' = true ->
  withinTimeThreshold threshold obj = true -> withinTimeThreshold threshold' obj = true.
Proof.
  unfold withinTimeThreshold. intros Hle H. apply andb_true_iff in H as [Hf Hl].
  rewrite Hf. simpl. exact (leb_trans _ _ _ Hl Hle).
Qed.

(** X8.  [hasCriticalObjects] is monotone in the threshold; after
    [addObject] it is the old answer or the test on the added object; it is
    false after [clear]; and it is false for a NaN threshold whatever is
    stored. *)
Theorem hasCriticalObjects_thresholds (t : AEBObjectTracker) (threshold : float) :
  (forall threshold', F32.leb threshold threshold' = true ->
     hasCriticalObjects threshold t = true -> hasCriticalObjects threshold' t = true) /\
  (forall object,
     hasCriticalObjects threshold (addObject object t)
     = hasCriticalObjects threshold t || withinTimeThreshold threshold object) /\
  hasCriticalObjects threshold (clear t) = false /\
  hasCriticalObjects S754_nan t = false.
Proof.
  unfold hasCriticalObjects, addObject, clear. simpl. split; [|split; [|split]].
  - intros threshold' Hle. rewrite !any_of_existsb, !existsb_exists.
    intros (obj & Hin & Hw). exists obj. split; [exact Hin|].
    exact (withinTimeThreshold_monotone _ _ _ Hle Hw).
  - intros object. rewrite any_of_app. simpl.
    now destruct (withinTimeThreshold threshold object).
  - reflexivity.
  - rewrite any_of_existsb. apply not_true_is_false. rewrite existsb_exists.
    intros (obj & _ & Hw). unfold withinTimeThreshold in Hw.
    apply andb_true_iff in Hw as [_ Hl].
    destruct (leb_true_not_nan _ _ Hl) as [_ Hn]. discriminate.
Qed.

Lemma hasCriticalObjects_thresholds_witness :
  hasCriticalObjects (F32.of_Z 5) scenario1 = true.
Proof.
  apply (proj1 (hasCriticalObjects_thresholds scenario1 (F32.of_Z 2)));
    vm_compute; reflexivity.
Defined.

(** X9.  An object that does not approach faster than 0.1 (including a NaN
    velocity) is constructed with an infinite collision time and threat
    level zero, passes no time threshold, and adding it to a tracker changes
    neither [hasCriticalObjects] nor [getObjectsWithinTimeThreshold]. *)
Theorem receding_object_never_critical
  (obj_id : Z) (dist rel_vel : float) (t : AEBObjectTracker) (threshold : float) :
  F32.ltb rel_vel (F32.opp F32.c0_1) = false ->
  let object := mkDetectedObject obj_id dist rel_vel in
  getCollisionTime object = F32.infinity /\
  getThreatLevel object = F32.c0 /\
  withinTimeThreshold threshold object = false /\
  hasCriticalObjects threshold (addObject object t) = hasCriticalObjects threshold t /\
  getObjectsWithinTimeThreshold threshold (addObject object t)
  = getObjectsWithinTimeThreshold threshold t.
Proof.
  intros Hv object.
  assert (Ht : getCollisionTime object = F32.infinity).
  { unfold object, getCollisionTime, mkDetectedObject, timeToCollision.
    cbn [collision_time_]. now rewrite Hv. }
  assert (Hw : withinTimeThreshold threshold object = false).
  { unfold withinTimeThreshold. now rewrite Ht. }
  split; [exact Ht | split; [|split; [exact Hw | split]]].
  - change (getThreatLevel object)
      with (calculateThreatLevel dist (getCollisionTime object)).
    rewrite Ht. reflexivity.
  - unfold hasCriticalObjects, addObject. simpl. rewrite any_of_app. simpl.
    rewrite Hw. now rewrite orb_false_r.
  - unfold getObjectsWithinTimeThreshold, addObject. simpl.
    rewrite !copy_if_filter, filter_app. simpl. rewrite Hw. apply app_nil_r.
Qed.

Lemma receding_object_never_critical_witness :
  hasCriticalObjects (F32.of_Z 1000) (addObject (objZ 9 1 8) scenario1)
  = hasCriticalObjects (F32.of_Z 1000) scenario1.
Proof.
  apply (receding_object_never_critical 9 (F32.of_Z 1) (F32.of_Z 8) scenario1
           (F32.of_Z 1000)).
  vm_compute. reflexivity.
Defined.

(** ** The multi-criteria comparator *)

Lemma abs_sub_self (x : float) :
  F32.abs (F32.sub x x) = S754_zero false \/ F32.abs (F32.sub x x) = S754_nan.
Proof.
  destruct x as [[] | [] | | s m e]; simpl; auto.
  left. unfold F32.abs, F32.sub, SFsub. rewrite Z.sub_diag. reflexivity.
Qed.

Lemma gtb_abs_sub_self (x eps : float) :
  F32.ltb (S754_zero false) eps = true ->
  F32.gtb (F32.abs (F32.sub x x)) eps = false.
Proof.
  intros Heps. unfold F32.gtb. destruct (abs_sub_self x) as [-> | ->].
  - now apply ltb_asym.
  - destruct eps; reflexivity.
Qed.

(** X10.  The comparator of [sortMultiCriteria] is irreflexive and
    asymmetric, but it is not a strict weak ordering on every list of
    objects: three objects with threat levels within the tolerance of each
    other form a cycle. *)
Theorem multiCriteriaComparator_order :
  (forall a, multiCriteriaComparator a a = false) /\
  (forall a b, multiCriteriaComparator a b = true ->
               multiCriteriaComparator b a = false) /\
  (exists l, ~ strict_weak_order_on multiCriteriaComparator l).
Proof.
  split; [|split].
  - intros a. unfold multiCriteriaComparator.
    rewrite !gtb_abs_sub_self by reflexivity.
    rewrite andb_false_r. apply ltb_irrefl.
  - intros a b. unfold multiCriteriaComparator.
    rewrite (abs_sub_sym (getThreatLevel b) (getThreatLevel a)).
    rewrite (abs_sub_sym (getCollisionTime b) (getCollisionTime a)).
    destruct (F32.gtb (F32.abs (F32.sub (getThreatLevel a) (getThreatLevel b))) F32.c0_01).
    + apply ltb_asym.
    + rewrite (andb_comm (negb (F32.isinf (getCollisionTime b)))).
      destruct (negb (F32.isinf (getCollisionTime a)) &&
                negb (F32.isinf (getCollisionTime b)) &&
                F32.gtb (F32.abs (F32.sub (getCollisionTime a) (getCollisionTime b)))
                        F32.c0_1); apply ltb_asym.
  - exists [fst (fst multiCriteriaCycle); snd (fst multiCriteriaCycle);
            snd multiCriteriaCycle].
    intros [_ Htrans _].
    specialize (Htrans (fst (fst multiCriteriaCycle)) (snd (fst multiCriteriaCycle))
                       (snd multiCriteriaCycle)).
    simpl in Htrans.
    assert (H : multiCriteriaComparator (objZ 1 1 (-2)) (objZ 3 3 (-8)) = true).
    { apply Htrans; auto; vm_compute; reflexivity. }
    vm_compute in H. discriminate H.
Qed.

Lemma multiCriteriaComparator_order_witness :
  multiCriteriaComparator (objZ 4 15 (-3)) (objZ 7 10 (-8)) = false.
Proof.
  apply (proj1 (proj2 multiCriteriaComparator_order)). vm_compute. reflexivity.
Defined.

(** ** The collision-time comparator as an ordering *)

(** X11.  On objects with comparable collision times (anything but NaN,
    with a distance that is not NaN where the time is infinite)
    [Comparators::byCollisionTime] is a strict weak ordering, and two
    objects are equivalent for it exactly when they share the place its key
    gives them. *)
Theorem byCollisionTime_strict_weak_order (l : list DetectedObject) :
  Forall comparableByCollisionTime l ->
  strict_weak_order_on Comparators.byCollisionTime l /\
  (forall a b, In a l -> In b l ->
     (equiv_wrt Comparators.byCollisionTime a b <-> collisionRank a = collisionRank b)).
Proof.
  intros Hall. split; [now apply byCollisionTime_swo|].
  rewrite Forall_forall in Hall. intros a b Ha Hb. unfold equiv_wrt.
  rewrite (byCollisionTime_false_rank a b (Hall a Ha) (Hall b Hb)).
  rewrite (byCollisionTime_false_rank b a (Hall b Hb) (Hall a Ha)).
  destruct (collisionRank a) as [fa [[xa ya] za]],
           (collisionRank b) as [fb [[xb yb] zb]]. simpl.
  split.
  - intros [H1 H2]. assert (fa = fb /\ xa = xb /\ ya = yb /\ za = zb) by lia.
    destruct H as (-> & -> & -> & ->). reflexivity.
  - intros E. injection E as -> -> -> ->. lia.
Qed.

Lemma byCollisionTime_strict_weak_order_witness :
  strict_weak_order_on Comparators.byCollisionTime (objects_ scenario1).
Proof.
  exact (proj1 (byCollisionTime_strict_weak_order (objects_ scenario1)
                  scenario1_comparable)).
Defined.

(** X12.  Two objects with the same finite collision time are equivalent
    for [Comparators::byCollisionTime], whatever their distances, and
    [sortByCollisionTime] may leave them in either order. *)
Theorem equal_collision_times_tie (a b : DetectedObject) :
  F32.isinf (getCollisionTime a) = false ->
  getCollisionTime a = getCollisionTime b ->
  equiv_wrt Comparators.byCollisionTime a b /\
  sortByCollisionTime {| objects_ := [a; b] |} {| objects_ := [a; b] |} /\
  sortByCollisionTime {| objects_ := [a; b] |} {| objects_ := [b; a] |}.
Proof.
  intros Hinf Heq.
  assert (Hab : Comparators.byCollisionTime a b = false).
  { unfold Comparators.byCollisionTime. rewrite <- Heq, Hinf. simpl. apply ltb_irrefl. }
  assert (Hba : Comparators.byCollisionTime b a = false).
  { unfold Comparators.byCollisionTime. rewrite <- Heq, Hinf. simpl. apply ltb_irrefl. }
  split; [split; assumption | split].
  - split; [reflexivity|]. apply sorted_wrtb_spec. simpl. now rewrite Hba.
  - split; [apply perm_swap|]. apply sorted_wrtb_spec. simpl. now rewrite Hab.
Qed.

Lemma equal_collision_times_tie_witness :
  sortByCollisionTime {| objects_ := [objZ 2 40 (-20); objZ 1 20 (-10)] |}
                      {| objects_ := [objZ 2 40 (-20); objZ 1 20 (-10)] |}.
Proof.
  apply (proj1 (proj2 (equal_collision_times_tie (objZ 2 40 (-20)) (objZ 1 20 (-10))
                         eq_refl eq_refl))).
Defined.

(** ** What the constructor yields for a finite distance *)

Lemma timeToCollision_cases (dist rel_vel : float) :
  timeToCollision dist rel_vel = F32.infinity \/
  timeToCollision dist rel_vel = F32.div dist F32.infinity \/
  exists mv ev, timeToCollision dist rel_vel = F32.div dist (S754_finite false mv ev).
Proof.
  unfold timeToCollision.
  destruct (F32.ltb rel_vel (F32.opp F32.c0_1)) eqn:Hv; [|now left].
  destruct rel_vel as [sv | [] | | [] mv ev]; try discriminate Hv.
  - right. left. reflexivity.
  - right. right. exists mv, ev. reflexivity.
Qed.

(** X13.  The constructor yields a comparable collision time for every
    finite distance; and for every finite distance that is not negative a
    collision time that is not a NaN, not negative infinity and not below
    zero (so zero, positive or [+infinity]), whatever the velocity. *)
Theorem constructor_collision_time (obj_id : Z) (dist rel_vel : float) :
  (finiteFloat dist = true ->
     comparableByCollisionTime (mkDetectedObject obj_id dist rel_vel)) /\
  (finiteNonNegative dist = true ->
     ordinaryCollisionTime (mkDetectedObject obj_id dist rel_vel) /\
     F32.ltb (getCollisionTime (mkDetectedObject obj_id dist rel_vel)) F32.c0 = false).
Proof.
  unfold comparableByCollisionTime, ordinaryCollisionTime, collisionKey,
    getCollisionTime, getDistance, mkDetectedObject.
  cbn [collision_time_ distance_].
  destruct (timeToCollision_cases dist rel_vel) as [-> | [-> | (mv & ev & ->)]].
  - split; intros Hd.
    + destruct dist; try discriminate Hd; reflexivity.
    + split; [split; [reflexivity | discriminate] | reflexivity].
  - split; intros Hd; destruct dist as [sd | sd | | sd md ed]; try discriminate Hd.
    + reflexivity.
    + reflexivity.
    + split; [split; [reflexivity | discriminate] | destruct sd; reflexivity].
    + destruct sd; [discriminate Hd|].
      split; [split; [reflexivity | discriminate] | reflexivity].
  - split; intros Hd; destruct dist as [sd | sd | | sd md ed]; try discriminate Hd.
    + reflexivity.
    + pose proof (div_finite_sign sd false md mv ed ev) as Hs.
      destruct (F32.div (S754_finite sd md ed) (S754_finite false mv ev));
        try reflexivity; contradiction.
    + split; [split; [reflexivity | discriminate] | destruct sd; reflexivity].
    + destruct sd; [discriminate Hd|].
      pose proof (div_finite_sign false false md mv ed ev) as Hs.
      destruct (F32.div (S754_finite false md ed) (S754_finite false mv ev))
        as [s | s | | s m e]; try contradiction; simpl in Hs; subst s;
        (split; [split; [reflexivity | discriminate] | reflexivity]).
Qed.

Lemma constructor_collision_time_witness :
  ordinaryCollisionTime (objZ 1 50 (-10)) /\
  F32.ltb (getCollisionTime (objZ 1 50 (-10))) F32.c0 = false.
Proof.
  apply (proj2 (constructor_collision_time 1 (F32.of_Z 50) (F32.of_Z (-10)))).
  vm_compute. reflexivity.
Defined.

(* ================================================================== *)
(** * The robot on its grid *)
(* ================================================================== *)

Module RobotFacts.
Import RobotNav.

(** ** Turning and moving on the grid *)

Lemma clamp_max_min (v lo hi : Z) :
  lo <= hi -> clamp v lo hi = Z.max lo (Z.min v hi).
Proof.
  intros Hle. unfold clamp.
  destruct (Z.ltb_spec v lo); [lia|]. destruct (Z.ltb_spec hi v); lia.
Qed.

Lemma kDelta_values (d : Direction) :
  kDeltaX (direction_index d) = match d with kEast => 1 | kWest => -1 | _ => 0 end /\
  kDeltaY (direction_index d) = match d with kNorth => -1 | kSouth => 1 | _ => 0 end.
Proof. destruct d; split; reflexivity. Qed.

Ltac grid_arith :=
  rewrite ?clamp_max_min by (unfold kGridSize; lia);
  unfold kGridSize in *;
  repeat match goal with
         | |- context [kDeltaX (direction_index ?d)] =>
             rewrite (proj1 (kDelta_values d)), ?(proj2 (kDelta_values d))
         | |- context [kDeltaY (direction_index ?d)] =>
             rewrite (proj2 (kDelta_values d))
         end;
  try match goal with
      | |- context [match ?d with kNorth => _ | _ => _ end] => destruct d
      end;
  lia.

Lemma calculateNewPosition_inGrid (r : Robot) : inGrid (calculateNewPosition r).
Proof.
  unfold inGrid, calculateNewPosition. cbn [x_ y_]. split; grid_arith.
Qed.

Lemma calculateNewPosition_oneStep (r : Robot) :
  inGrid (position_ r) -> oneStepApart (position_ r) (calculateNewPosition r).
Proof.
  unfold inGrid, oneStepApart, calculateNewPosition. cbn [x_ y_].
  intros [Hx Hy]. grid_arith.
Qed.

(** The closed form of [n] steps in the direction faced. *)
Lemma moveForward_position (n : nat) (r : Robot) :
  inGrid (position_ r) ->
  position_ (moveForward n r)
  = {| x_ := clamp (x_ (position_ r) + Z.of_nat n * kDeltaX (direction_index (direction_ r)))
                   0 (kGridSize - 1);
       y_ := clamp (y_ (position_ r) + Z.of_nat n * kDeltaY (direction_index (direction_ r)))
                   0 (kGridSize - 1) |}
  /\ direction_ (moveForward n r) = direction_ r.
Proof.
  revert r. induction n as [|n IH]; intros r Hin.
  - cbn [moveForward]. split; [|reflexivity]. destruct (position_ r) as [x y].
    unfold inGrid in Hin. cbn [x_ y_] in *.
    change (Z.of_nat 0) with 0. rewrite !Z.mul_0_l, !Z.add_0_r.
    f_equal; grid_arith.
  - cbn [moveForward].
    set (r1 := {| position_ := calculateNewPosition r; direction_ := direction_ r;
                  path_history_ := path_history_ r ++ [calculateNewPosition r] |}).
    destruct (IH r1 (calculateNewPosition_inGrid r)) as [Hp Hd].
    rewrite Hp, Hd. split; [|reflexivity].
    unfold r1, calculateNewPosition. cbn [position_ direction_ x_ y_].
    unfold inGrid, kGridSize in Hin. destruct (position_ r) as [x y]. cbn [x_ y_] in *.
    rewrite Nat2Z.inj_succ. f_equal; grid_arith.
Qed.

Lemma last_cons_default {A : Type} (p : A) (l : list A) (d d' : A) :
  last (p :: l) d = last (p :: l) d'.
Proof.
  revert p. induction l as [|q l IH]; intros p; [reflexivity|].
  change (last (p :: q :: l) d) with (last (q :: l) d).
  change (last (p :: q :: l) d') with (last (q :: l) d'). apply IH.
Qed.

Lemma last_app_cons {A : Type} (l1 : list A) (q : A) (l2 : list A) (d : A) :
  last (l1 ++ q :: l2) d = last (q :: l2) d.
Proof.
  induction l1 as [|p l1 IH]; [reflexivity|].
  rewrite <- IH. simpl. destruct (l1 ++ q :: l2) eqn:E; [|reflexivity].
  now destruct l1.
Qed.

Lemma moveForward_history (n : nat) (r : Robot) :
  exists added,
    path_history_ (moveForward n r) = path_history_ r ++ added /\
    length added = n /\ Forall inGrid added /\
    position_ (moveForward n r) = last added (position_ r) /\
    (inGrid (position_ r) -> stepwise (position_ r :: added)).
Proof.
  revert r. induction n as [|n IH]; intros r.
  - exists []. simpl. rewrite app_nil_r. repeat split; auto.
  - cbn [moveForward].
    set (r1 := {| position_ := calculateNewPosition r; direction_ := direction_ r;
                  path_history_ := path_history_ r ++ [calculateNewPosition r] |}).
    destruct (IH r1) as (added & Hh & Hl & Hg & Hp & Hs).
    exists (calculateNewPosition r :: added).
    subst r1. cbn [path_history_ position_] in Hh, Hp, Hs.
    rewrite Hh, <- app_assoc. split; [reflexivity | split; [|split; [|split]]].
    + simpl. now rewrite Hl.
    + constructor; [apply calculateNewPosition_inGrid | exact Hg].
    + rewrite Hp. destruct added as [|p added]; [reflexivity|].
      change (last (calculateNewPosition r :: p :: added) (position_ r))
        with (last (p :: added) (position_ r)).
      apply last_cons_default.
    + intros Hin.
      change (oneStepApart (position_ r) (calculateNewPosition r) /\
              stepwise (calculateNewPosition r :: added)).
      split.
      * now apply calculateNewPosition_oneStep.
      * apply Hs, calculateNewPosition_inGrid.
Qed.

Lemma moveForward_direction (n : nat) (r : Robot) :
  direction_ (moveForward n r) = direction_ r.
Proof.
  revert r. induction n as [|n IH]; intros r; [reflexivity|].
  cbn [moveForward]. now rewrite IH.
Qed.

Lemma stepwise_app (p : Position) (a1 a2 : list Position) :
  stepwise (p :: a1) -> stepwise (last a1 p :: a2) -> stepwise (p :: a1 ++ a2).
Proof.
  revert p. induction a1 as [|q a1 IH]; intros p H1 H2; [exact H2|].
  change (oneStepApart p q /\ stepwise (q :: a1)) in H1. destruct H1 as [Hpq H1].
  change (oneStepApart p q /\ stepwise (q :: a1 ++ a2)). split; [exact Hpq|].
  apply IH; [exact H1|].
  destruct a1 as [|q' a1]; [exact H2|].
  rewrite (last_cons_default q' a1 q p). exact H2.
Qed.

Lemma stepwise_distance (p : Position) (added : list Position) :
  stepwise (p :: added) ->
  Z.abs (x_ (last added p) - x_ p) + Z.abs (y_ (last added p) - y_ p)
  <= Z.of_nat (length added).
Proof.
  revert p. induction added as [|q added IH]; intros p Hs.
  - simpl. lia.
  - change (oneStepApart p q /\ stepwise (q :: added)) in Hs. destruct Hs as [Hpq Hs].
    specialize (IH q Hs). unfold oneStepApart in Hpq.
    assert (Hlast : last (q :: added) p = last added q).
    { destruct added as [|q' added]; [reflexivity|].
      change (last (q :: q' :: added) p) with (last (q' :: added) p).
      apply last_cons_default. }
    rewrite Hlast. cbn [length]. rewrite Nat2Z.inj_succ. lia.
Qed.

(** The steps an instruction list asks for. *)
Lemma executeInstructions_history (l : list Instruction) (r : Robot) :
  exists added,
    path_history_ (executeInstructions l r) = path_history_ r ++ added /\
    length added = list_sum (map (fun i => Z.to_nat (steps_ i)) l) /\
    Forall inGrid added /\
    position_ (executeInstructions l r) = last added (position_ r) /\
    (inGrid (position_ r) -> stepwise (position_ r :: added)).
Proof.
  revert r. induction l as [|i l IH]; intros r.
  - exists []. simpl. rewrite app_nil_r. repeat split; auto.
  - cbn [executeInstructions fold_left map list_sum fold_right].
    change (fold_left (fun r' instruction => executeInstruction instruction r') l
                      (executeInstruction i r))
      with (executeInstructions l (executeInstruction i r)).
    set (r0 := {| position_ := position_ r;
                  direction_ := calculateNewDirection r (turn_ i);
                  path_history_ := path_history_ r |}).
    change (executeInstruction i r) with (moveForward (Z.to_nat (steps_ i)) r0).
    destruct (moveForward_history (Z.to_nat (steps_ i)) r0)
      as (a1 & Hh1 & Hl1 & Hg1 & Hp1 & Hs1).
    destruct (IH (moveForward (Z.to_nat (steps_ i)) r0))
      as (a2 & Hh2 & Hl2 & Hg2 & Hp2 & Hs2).
    exists (a1 ++ a2). subst r0. cbn [path_history_ position_] in *.
    rewrite Hh2, Hh1, <- app_assoc, length_app, Hl1, Hl2.
    split; [reflexivity | split; [reflexivity | split; [|split]]].
    + apply Forall_app. now split.
    + rewrite Hp2, Hp1. destruct a2 as [|q a2]; [now rewrite app_nil_r|].
      rewrite last_app_cons. apply last_cons_default.
    + intros Hin. apply stepwise_app; [now apply Hs1|].
      rewrite <- Hp1. apply Hs2. rewrite Hp1.
      destruct a1 as [|q a1]; [exact Hin|].
      apply (Forall_forall inGrid (q :: a1)); [exact Hg1|].
      destruct (exists_last (l := q :: a1) ltac:(discriminate)) as (l' & z & E).
      rewrite E, last_last. apply in_or_app. right. now left.
Qed.

End RobotFacts.

(** X14.  Turning, on a robot whose coordinates are not at the ends of the
    [int32] range: an instruction followed by one with the opposite turn
    leaves the robot facing as before, whatever the step counts; four equal
    turns do too; and three turns one way face the robot as one turn the
    other way. *)
Theorem turns_cancel (r : Robot) (i j : Instruction) :
  representable (position_ r) -> turn_ i <> turn_ j ->
  direction_ (executeInstruction j (executeInstruction i r)) = direction_ r /\
  direction_ (executeInstructions [i; i; i; i] r) = direction_ r /\
  direction_ (executeInstructions [j; j; j] r) = direction_ (executeInstruction i r).
Proof.
  intros _ Hij. unfold executeInstructions, fold_left, executeInstruction.
  rewrite !RobotFacts.moveForward_direction. cbn [direction_].
  unfold calculateNewDirection. cbn [direction_].
  rewrite !RobotFacts.moveForward_direction. cbn [direction_].
  destruct (turn_ i), (turn_ j); try congruence; destruct (direction_ r);
    repeat split; reflexivity.
Qed.

Lemma turns_cancel_witness :
  direction_ (executeInstruction {| turn_ := kLeft; steps_ := 3 |}
                (executeInstruction {| turn_ := kRight; steps_ := 2 |} defaultRobot))
  = direction_ defaultRobot.
Proof.
  apply (turns_cancel defaultRobot {| turn_ := kRight; steps_ := 2 |}
           {| turn_ := kLeft; steps_ := 3 |}).
  - unfold representable, INT_MIN, INT_MAX, defaultRobot, defaultPosition, kStartX, kStartY.
    cbn [mkRobot position_ x_ y_]. lia.
  - discriminate.
Defined.

(** X15.  One instruction on a robot inside the grid: the robot faces the
    turned direction, and each coordinate is the old one plus the steps
    times the direction's delta, clamped to the grid; the robot stays
    inside the grid. *)
Theorem executeInstruction_position (i : Instruction) (r : Robot) :
  inGrid (position_ r) -> 0 <= steps_ i ->
  let d := calculateNewDirection r (turn_ i) in
  position_ (executeInstruction i r)
  = {| x_ := clamp (x_ (position_ r) + steps_ i * kDeltaX (direction_index d))
                   0 (kGridSize - 1);
       y_ := clamp (y_ (position_ r) + steps_ i * kDeltaY (direction_index d))
                   0 (kGridSize - 1) |}
  /\ direction_ (executeInstruction i r) = d
  /\ inGrid (position_ (executeInstruction i r)).
Proof.
  intros Hin Hs d. unfold executeInstruction.
  set (r0 := {| position_ := position_ r; direction_ := calculateNewDirection r (turn_ i);
                path_history_ := path_history_ r |}).
  destruct (RobotFacts.moveForward_position (Z.to_nat (steps_ i)) r0 Hin) as [Hp Hd].
  rewrite Z2Nat.id in Hp by exact Hs.
  split; [exact Hp | split; [exact Hd|]].
  rewrite Hp. unfold inGrid. cbn [x_ y_].
  rewrite !RobotFacts.clamp_max_min by (unfold kGridSize; lia).
  unfold kGridSize. lia.
Qed.

Lemma executeInstruction_position_witness :
  position_ (executeInstruction {| turn_ := kRight; steps_ := 7 |} defaultRobot)
  = {| x_ := 9; y_ := 5 |}.
Proof.
  refine (proj1 (executeInstruction_position {| turn_ := kRight; steps_ := 7 |}
                   defaultRobot _ _)).
  - unfold inGrid, kGridSize, defaultRobot, defaultPosition, kStartX, kStartY.
    cbn [mkRobot position_ x_ y_]. lia.
  - cbn [steps_]. lia.
Defined.

(** X16.  On a robot whose coordinates are not at the ends of the [int32]
    range, [executeInstructions] only appends to the path history: one
    position inside the grid per requested step; the current position is
    the last position appended; a history that ended at the current
    position still does; and the start position of a robot that has a
    history is unchanged. *)
Theorem executeInstructions_path (l : list Instruction) (r : Robot) :
  representable (position_ r) ->
  exists added,
    path_history_ (executeInstructions l r) = path_history_ r ++ added /\
    length added = list_sum (map (fun i => Z.to_nat (steps_ i)) l) /\
    Forall inGrid added /\
    position_ (executeInstructions l r) = last added (position_ r) /\
    (historyEndsAtPosition r -> historyEndsAtPosition (executeInstructions l r)) /\
    (path_history_ r <> [] ->
       getStartPosition (executeInstructions l r) = getStartPosition r).
Proof.
  intros _.
  destruct (RobotFacts.executeInstructions_history l r)
    as (added & Hh & Hl & Hg & Hp & _).
  exists added. repeat (split; [assumption|]). split.
  - intros [before Hb]. unfold historyEndsAtPosition. rewrite Hh, Hp.
    destruct added as [|q added]; [exists before; now rewrite app_nil_r|].
    destruct (exists_last (l := q :: added) ltac:(discriminate)) as (l' & z & E).
    rewrite E, last_last. exists (path_history_ r ++ l'). now rewrite app_assoc.
  - intros Hne. unfold getStartPosition. rewrite Hh.
    destruct (path_history_ r); [contradiction | reflexivity].
Qed.

Lemma executeInstructions_path_witness :
  historyEndsAtPosition
    (executeInstructions [{| turn_ := kRight; steps_ := 2 |}] defaultRobot).
Proof.
  assert (Hrep : representable (position_ defaultRobot)).
  { unfold representable, INT_MIN, INT_MAX, defaultRobot, defaultPosition, kStartX, kStartY.
    cbn [mkRobot position_ x_ y_]. lia. }
  destruct (executeInstructions_path [{| turn_ := kRight; steps_ := 2 |}] defaultRobot Hrep)
    as (added & _ & _ & _ & _ & H & _).
  apply H. exists []. reflexivity.
Defined.

(** X17.  After [executeInstructions] on a robot whose coordinates are not
    at the ends of the [int32] range, [getActualSteps] is the value before
    plus the steps requested by the instructions, as an unsigned 32-bit
    number: steps that the wall blocks are counted too. *)
Theorem getActualSteps_counts_requested_steps (l : list Instruction) (r : Robot) :
  representable (position_ r) ->
  getActualSteps (executeInstructions l r)
  = to_uint32 (getActualSteps r
               + Z.of_nat (list_sum (map (fun i => Z.to_nat (steps_ i)) l))).
Proof.
  intros _.
  destruct (RobotFacts.executeInstructions_history l r) as (added & Hh & Hl & _).
  unfold getActualSteps, to_uint32. rewrite Hh, length_app, Hl.
  set (n := list_sum _). set (h := length (path_history_ r)).
  rewrite Nat2Z.inj_add.
  set (m := 2 ^ 32).
  rewrite (Zminus_mod_idemp_l (Z.of_nat h + Z.of_nat n) 1 m).
  rewrite (Zplus_mod_idemp_l (Z.of_nat h mod m - 1) (Z.of_nat n) m).
  replace (Z.of_nat h mod m - 1 + Z.of_nat n)
    with (Z.of_nat h mod m + (Z.of_nat n - 1)) by ring.
  rewrite (Zplus_mod_idemp_l (Z.of_nat h) (Z.of_nat n - 1) m).
  f_equal. ring.
Qed.

Lemma getActualSteps_counts_requested_steps_witness :
  getActualSteps (executeInstructions [{| turn_ := kRight; steps_ := 5 |};
                                       {| turn_ := kRight; steps_ := 5 |}] defaultRobot)
  = 10.
Proof.
  rewrite (getActualSteps_counts_requested_steps _ defaultRobot); [reflexivity|].
  unfold representable, INT_MIN, INT_MAX, defaultRobot, defaultPosition, kStartX, kStartY.
  cbn [mkRobot position_ x_ y_]. lia.
Defined.

(** X18.  A robot constructed inside the grid stays inside it, and its
    Manhattan distance from the start never exceeds the number of steps
    requested, nor twice the grid size less one. *)
Theorem manhattan_at_most_steps (l : list Instruction) (start : Position) (d : Direction) :
  inGrid start ->
  let r := executeInstructions l (mkRobot start d) in
  Robot_getManhattanDistance r
    <= Z.of_nat (list_sum (map (fun i => Z.to_nat (steps_ i)) l)) /\
  Robot_getManhattanDistance r <= 2 * (kGridSize - 1) /\
  inGrid (position_ r).
Proof.
  intros Hin r.
  destruct (RobotFacts.executeInstructions_history l (mkRobot start d))
    as (added & Hh & Hl & Hg & Hp & Hs).
  fold r in Hh, Hp. cbn [mkRobot path_history_ position_] in Hh, Hp, Hs.
  specialize (Hs Hin). pose proof (RobotFacts.stepwise_distance start added Hs) as Hd.
  rewrite <- Hp, Hl in Hd.
  assert (Hgrid : inGrid (position_ r)).
  { rewrite Hp. destruct added as [|q added]; [exact Hin|].
    apply (Forall_forall inGrid (q :: added)); [exact Hg|].
    destruct (exists_last (l := q :: added) ltac:(discriminate)) as (l' & z & E).
    rewrite E, last_last. apply in_or_app. right. now left. }
  unfold Robot_getManhattanDistance, Position_getManhattanDistance, to_uint32.
  rewrite Hh. cbn [app].
  unfold inGrid, kGridSize in *.
  rewrite Z.mod_small by lia. repeat split; lia.
Qed.

Lemma manhattan_at_most_steps_witness :
  Robot_getManhattanDistance
    (executeInstructions [{| turn_ := kRight; steps_ := 2 |}] (mkRobot defaultPosition kNorth))
  <= 2.
Proof.
  refine (proj1 (manhattan_at_most_steps [{| turn_ := kRight; steps_ := 2 |}]
                   defaultPosition kNorth _)).
  unfold inGrid, kGridSize, defaultPosition, kStartX, kStartY. cbn [x_ y_]. lia.
Defined.

(** X19.  On positions of the grid [Position::getManhattanDistance] is a
    metric: symmetric, zero exactly for equal positions, it satisfies the
    triangle inequality, and it is at most twice the grid size less one. *)
Theorem manhattanDistance_metric (p q s : Position) :
  inGrid p -> inGrid q -> inGrid s ->
  Position_getManhattanDistance p q = Position_getManhattanDistance q p /\
  (Position_getManhattanDistance p q = 0 <-> Position_eqb p q = true) /\
  Position_getManhattanDistance p s
    <= Position_getManhattanDistance p q + Position_getManhattanDistance q s /\
  0 <= Position_getManhattanDistance p q <= 2 * (kGridSize - 1).
Proof.
  unfold inGrid, kGridSize, Position_getManhattanDistance, Position_eqb, to_uint32.
  intros Hp Hq Hs.
  rewrite !Z.mod_small by lia.
  rewrite andb_true_iff, !Z.eqb_eq. repeat split; lia.
Qed.

Lemma manhattanDistance_metric_witness :
  Position_getManhattanDistance {| x_ := 2; y_ := 7 |} {| x_ := 6; y_ := 2 |}
  = Position_getManhattanDistance {| x_ := 6; y_ := 2 |} {| x_ := 2; y_ := 7 |}.
Proof.
  refine (proj1 (manhattanDistance_metric {| x_ := 2; y_ := 7 |} {| x_ := 6; y_ := 2 |}
                   defaultPosition _ _ _));
    unfold inGrid, kGridSize, defaultPosition, kStartX, kStartY; cbn [x_ y_]; lia.
Defined.

(** The scenarios of the built-in test run that the code passes. *)
Example robot_scenarios :
  let run s :=
    match parseInstructions s with
    | Ok l => Some (position_ (executeInstructions l defaultRobot))
    | Throw _ => None
    end in
  run "R2,L3,L1"%string = Some {| x_ := 6; y_ := 2 |} /\
  run "R1,R1,R1,R1"%string = Some {| x_ := 5; y_ := 5 |} /\
  run "R1,L1,R1,L1,R1,L1"%string = Some {| x_ := 8; y_ := 2 |}.
Proof. repeat split. Qed.

(* ================================================================== *)
(** * Printing and parsing instructions *)
(* ================================================================== *)

Module RobotPrintFacts.
Import RobotNav.

Lemma isdigit_char (c : ascii) :
  isdigit c = true ->
  isspace c = false /\ Ascii.eqb c "," = false /\ Ascii.eqb c " " = false /\
  Ascii.eqb c "-" = false /\ Ascii.eqb c "+" = false.
Proof.
  destruct c as [[] [] [] [] [] [] [] []]; vm_compute; intros H;
    first [discriminate H | repeat split].
Qed.

Lemma digit_char_code (d : Z) :
  0 <= d < 10 -> code (digit_char d) = 48 + d /\ isdigit (digit_char d) = true.
Proof.
  intros H.
  assert (E : d = 0 \/ d = 1 \/ d = 2 \/ d = 3 \/ d = 4 \/ d = 5 \/ d = 6 \/ d = 7
              \/ d = 8 \/ d = 9) by lia.
  repeat (destruct E as [E|E]; [subst d; split; reflexivity|]).
  subst d; split; reflexivity.
Qed.

Lemma all_digits_app (s t : string) :
  all_digits (s ++ t)%string = all_digits s && all_digits t.
Proof.
  induction s as [|c s IH]; simpl; [reflexivity|]. now rewrite IH, andb_assoc.
Qed.

Lemma digits_value_app (s t : string) (a : Z) :
  digits_value (s ++ t)%string a = digits_value t (digits_value s a).
Proof. revert a. induction s as [|c s IH]; intros a; simpl; [reflexivity | apply IH]. Qed.

(** The digits written for [n] in front of [acc]. *)
Lemma to_digits_spec (fuel : nat) :
  forall (n : Z) (acc : string),
    0 <= n < 10 ^ Z.of_nat fuel -> (0 < fuel)%nat ->
    exists ds, to_digits fuel n acc = (ds ++ acc)%string /\
               ds <> EmptyString /\ all_digits ds = true /\
               forall a, digits_value ds a = a * 10 ^ Z.of_nat (String.length ds) + n.
Proof.
  induction fuel as [|f IH]; intros n acc Hn Hf; [lia|].
  cbn [to_digits].
  assert (Hd : 0 <= n mod 10 < 10) by (apply Z.mod_pos_bound; lia).
  destruct (digit_char_code _ Hd) as [Hcode Hdig].
  destruct (Z.ltb_spec n 10) as [Hlt|Hge].
  - exists (String (digit_char (n mod 10)) EmptyString).
    split; [reflexivity|]. split; [discriminate|]. split; [simpl; now rewrite Hdig|].
    intros a. cbn [digits_value String.length]. rewrite Hcode.
    rewrite Z.mod_small by lia. change (10 ^ Z.of_nat 1) with 10. ring.
  - assert (Hf' : (0 < f)%nat).
    { destruct f; [|lia]. change (10 ^ Z.of_nat 1) with 10 in Hn. lia. }
    assert (Hq : 0 <= n / 10 < 10 ^ Z.of_nat f).
    { rewrite Nat2Z.inj_succ, Z.pow_succ_r in Hn by lia.
      split; [apply Z.div_pos; lia|].
      apply Z.div_lt_upper_bound; lia. }
    destruct (IH (n / 10) (String (digit_char (n mod 10)) acc) Hq Hf')
      as (ds & E & Hne & Hall & Hval).
    exists (ds ++ String (digit_char (n mod 10)) EmptyString)%string.
    split; [rewrite E; clear; induction ds as [|c ds IHd]; simpl;
            [reflexivity | now rewrite IHd]|].
    split; [destruct ds; [contradiction | discriminate]|].
    split; [rewrite all_digits_app, Hall; simpl; now rewrite Hdig|].
    intros a. rewrite digits_value_app, Hval. cbn [digits_value]. rewrite Hcode.
    assert (Hlen : String.length (ds ++ String (digit_char (n mod 10)) EmptyString)
                   = S (String.length ds)).
    { clear. induction ds as [|c ds IHd]; simpl; [reflexivity | now rewrite IHd]. }
    rewrite Hlen, Nat2Z.inj_succ, Z.pow_succ_r by lia.
    pose proof (Z.div_mod n 10 ltac:(lia)) as Hdm.
    set (p := 10 ^ Z.of_nat (String.length ds)) in *.
    set (q := n / 10) in *. set (m := n mod 10) in *. clearbody p q m.
    replace (10 * (a * p + q) + (48 + m - 48)) with (a * (10 * p) + (10 * q + m)) by ring.
    rewrite <- Hdm. reflexivity.
Qed.

Lemma to_string_spec (n : Z) :
  0 <= n < 2 ^ 32 ->
  to_string n <> EmptyString /\ all_digits (to_string n) = true /\
  digits_value (to_string n) 0 = n.
Proof.
  intros Hn. unfold to_string.
  destruct (to_digits_spec 10 n EmptyString) as (ds & E & Hne & Hall & Hval).
  - change (10 ^ Z.of_nat 10) with 10000000000. change (2 ^ 32) with 4294967296 in Hn. lia.
  - lia.
  - rewrite E, RobotNavFacts.append_empty_r. repeat split; try assumption.
    rewrite Hval. ring.
Qed.

Lemma read_digits_all (s : string) :
  forall acc, all_digits s = true -> s <> EmptyString ->
    read_digits s acc
    = Some (digits_value s match acc with Some a => a | None => 0 end).
Proof.
  induction s as [|c s IH]; intros acc Hall Hne; [contradiction|].
  simpl in Hall. apply andb_true_iff in Hall as [Hc Hs].
  cbn [read_digits digits_value]. rewrite Hc.
  destruct s as [|c' s']; [reflexivity|].
  rewrite IH by (auto; discriminate). reflexivity.
Qed.

Lemma stoi_digits (s : string) :
  all_digits s = true -> s <> EmptyString ->
  stoi s = if digits_value s 0 <=? INT_MAX then Ok (digits_value s 0)
           else Throw out_of_range.
Proof.
  intros Hall Hne. destruct s as [|c r]; [contradiction|].
  pose proof Hall as Hall'. simpl in Hall'. apply andb_true_iff in Hall' as [Hc _].
  destruct (isdigit_char c Hc) as (Hsp & _ & _ & Hm & Hp).
  unfold stoi. cbn [skip_space]. rewrite Hsp.
  assert (Hsign : match String c r with
                  | String "-"%char r0 => (true, r0)
                  | String "+"%char r0 => (false, r0)
                  | _ => (false, String c r)
                  end = (false, String c r)).
  { clear - Hm Hp. destruct c as [[] [] [] [] [] [] [] []]; try reflexivity;
      vm_compute in Hm, Hp; discriminate. }
  rewrite Hsign. rewrite read_digits_all by assumption.
  assert (Hnn : forall t a, 0 <= a -> all_digits t = true -> 0 <= digits_value t a).
  { clear. induction t as [|c t IH]; intros a Ha Ht; [exact Ha|].
    simpl in Ht. apply andb_true_iff in Ht as [Hc Ht]. cbn [digits_value].
    apply IH; [|exact Ht]. unfold isdigit in Hc.
    apply andb_true_iff in Hc as [H1 H2]. lia. }
  specialize (Hnn (String c r) 0 ltac:(lia) Hall).
  assert (Hmin : (INT_MIN <=? digits_value (String c r) 0) = true).
  { apply Z.leb_le. unfold INT_MIN. lia. }
  rewrite Hmin. reflexivity.
Qed.

Lemma strip_spaces_digits (s rest : string) :
  all_digits s = true ->
  strip_spaces (s ++ rest) = (s ++ strip_spaces rest)%string.
Proof.
  induction s as [|c s IH]; intros Hall; [reflexivity|].
  simpl in Hall. apply andb_true_iff in Hall as [Hc Hs].
  destruct (isdigit_char c Hc) as (_ & _ & Hsp & _).
  cbn [append strip_spaces]. rewrite Hsp, IH by exact Hs. reflexivity.
Qed.

Lemma split_commas_digits (s rest : string) :
  all_digits s = true ->
  split_commas (s ++ rest) = glue s (split_commas rest).
Proof.
  induction s as [|c s IH]; intros Hall.
  - simpl. destruct (split_commas rest) eqn:E; [|reflexivity].
    now destruct (RobotNavFacts.split_commas_nonempty rest).
  - simpl in Hall. apply andb_true_iff in Hall as [Hc Hs].
    destruct (isdigit_char c Hc) as (_ & Hco & _).
    cbn [append split_commas]. rewrite Hco, IH by exact Hs.
    unfold glue. destruct (split_commas rest); reflexivity.
Qed.

(** The tokens of a printed instruction followed by more text. *)
Lemma tokens_toString (i : Instruction) (rest : string) :
  0 <= steps_ i < 2 ^ 32 ->
  tokens (Instruction_toString i ++ rest)
  = glue (Instruction_toString i) (tokens rest).
Proof.
  intros Hr. destruct (to_string_spec _ Hr) as (_ & Hall & _).
  unfold tokens, Instruction_toString.
  destruct (turn_ i); cbn [append strip_spaces Ascii.eqb Bool.eqb];
    rewrite strip_spaces_digits by exact Hall;
    cbn [split_commas Ascii.eqb Bool.eqb];
    rewrite split_commas_digits by exact Hall;
    unfold glue; destruct (split_commas (strip_spaces rest)); reflexivity.
Qed.

Lemma parseToken_toString (i : Instruction) :
  0 <= steps_ i < 2 ^ 32 ->
  parseToken (Instruction_toString i)
  = if steps_ i <=? INT_MAX then Ok i else Throw out_of_range.
Proof.
  intros Hr. destruct (to_string_spec _ Hr) as (Hne & Hall & Hval).
  unfold Instruction_toString.
  assert (E : forall t, parseToken (String t (to_string (steps_ i)))
              = bind (stoi (to_string (steps_ i))) (fun steps =>
                  Ok {| turn_ := if Ascii.eqb t "L" then kLeft else kRight;
                        steps_ := to_uint32 steps |})) by reflexivity.
  destruct i as [t n]. cbn [turn_ steps_] in *.
  destruct t; cbn [append]; rewrite E, stoi_digits, Hval by assumption;
    destruct (Z.leb_spec n INT_MAX); cbn [bind]; try reflexivity;
    unfold to_uint32; rewrite Z.mod_small by lia; reflexivity.
Qed.


Lemma parseTokens_app (a b : list string) :
  parseTokens (a ++ b)
  = bind (parseTokens a) (fun x => bind (parseTokens b) (fun y => Ok (x ++ y))).
Proof.
  induction a as [|t ts IH]; cbn [app parseTokens].
  - cbn [bind]. destruct (parseTokens b); reflexivity.
  - destruct (is_empty t); [exact IH|].
    rewrite IH. destruct (parseToken t) as [i|e]; cbn [bind]; [|reflexivity].
    destruct (parseTokens ts) as [x|e]; cbn [bind]; [|reflexivity].
    destruct (parseTokens b) as [y|e]; cbn [bind]; reflexivity.
Qed.

Lemma strip_spaces_app (s t : string) :
  strip_spaces (s ++ t) = (strip_spaces s ++ strip_spaces t)%string.
Proof.
  induction s as [|c s IH]; [reflexivity|].
  cbn [append strip_spaces]. destruct (Ascii.eqb c " "); [exact IH|].
  cbn [append]. now rewrite IH.
Qed.

Lemma strip_spaces_idem (s : string) : strip_spaces (strip_spaces s) = strip_spaces s.
Proof.
  induction s as [|c s IH]; [reflexivity|].
  cbn [strip_spaces]. destruct (Ascii.eqb c " ") eqn:E; [exact IH|].
  cbn [strip_spaces]. now rewrite E, IH.
Qed.

Lemma split_commas_app (s t : string) :
  split_commas (s ++ String "," t) = split_commas s ++ split_commas t.
Proof.
  induction s as [|c s IH]; [reflexivity|].
  cbn [append split_commas]. destruct (Ascii.eqb c ","); [now rewrite IH|].
  rewrite IH. destruct (split_commas s) eqn:E; [|reflexivity].
  now destruct (RobotNavFacts.split_commas_nonempty s).
Qed.

Lemma tokens_app (s t : string) :
  tokens (s ++ String "," t) = tokens s ++ tokens t.
Proof.
  unfold tokens. rewrite strip_spaces_app. cbn [strip_spaces Ascii.eqb Bool.eqb].
  apply split_commas_app.
Qed.

End RobotPrintFacts.

Local Open Scope string_scope.

(** X20.  Printing then parsing: for instructions whose steps fit an
    [int], [parseInstructions] applied to the instruction line written by
    [printAnalysis] returns the instructions, and applied to the
    [toString] of one of them returns that instruction alone. *)
Theorem toString_parseInstructions_round_trip (l : list Instruction) :
  Forall readable l ->
  parseInstructions (printInstructions l) = Ok l /\
  forall i, In i l -> parseInstructions (Instruction_toString i) = Ok [i].
Proof.
  intros Hall.
  assert (Hone : forall i, readable i ->
            parseTokens [Instruction_toString i] = Ok [i] /\
            is_empty (Instruction_toString i) = false /\
            parseToken (Instruction_toString i) = Ok i).
  { intros i [H0 H1].
    assert (Hr : 0 <= steps_ i < 2 ^ 32) by (unfold INT_MAX in H1; lia).
    pose proof (RobotPrintFacts.parseToken_toString i Hr) as Hp.
    destruct (Z.leb_spec (steps_ i) INT_MAX); [|lia].
    assert (He : is_empty (Instruction_toString i) = false).
    { unfold Instruction_toString. destruct (turn_ i); reflexivity. }
    cbn [parseTokens]. rewrite He, Hp. repeat split. }
  split.
  - rewrite RobotNavFacts.parseInstructions_tokens.
    induction Hall as [|i l Hi Hl IH]; [reflexivity|].
    destruct (Hone i Hi) as (_ & He & Hp).
    assert (Hr : 0 <= steps_ i < 2 ^ 32) by (destruct Hi; unfold INT_MAX in *; lia).
    destruct l as [|j l'].
    + cbn [printInstructions].
      rewrite <- (RobotNavFacts.append_empty_r (Instruction_toString i)).
      rewrite RobotPrintFacts.tokens_toString by exact Hr.
      cbn [tokens strip_spaces split_commas glue].
      rewrite RobotNavFacts.append_empty_r. exact (proj1 (Hone i Hi)).
    + change (printInstructions (i :: j :: l'))
        with (Instruction_toString i ++ ", " ++ printInstructions (j :: l')).
      rewrite RobotPrintFacts.tokens_toString by exact Hr.
      change (tokens (", " ++ printInstructions (j :: l')))
        with (EmptyString :: tokens (printInstructions (j :: l'))).
      cbn [glue]. rewrite RobotNavFacts.append_empty_r.
      cbn [parseTokens]. rewrite He, Hp, IH. reflexivity.
  - intros i Hin. rewrite Forall_forall in Hall.
    rewrite RobotNavFacts.parseInstructions_tokens.
    rewrite <- (RobotNavFacts.append_empty_r (Instruction_toString i)).
    assert (Hr : 0 <= steps_ i < 2 ^ 32)
      by (destruct (Hall i Hin); unfold INT_MAX in *; lia).
    rewrite RobotPrintFacts.tokens_toString by exact Hr.
    cbn [tokens strip_spaces split_commas glue].
    rewrite RobotNavFacts.append_empty_r. exact (proj1 (Hone i (Hall i Hin))).
Qed.

Lemma toString_parseInstructions_round_trip_witness :
  parseInstructions "R2, L3, L1"
  = Ok [ {| turn_ := kRight; steps_ := 2 |}; {| turn_ := kLeft; steps_ := 3 |};
         {| turn_ := kLeft; steps_ := 1 |} ].
Proof.
  refine (proj1 (toString_parseInstructions_round_trip
                   [ {| turn_ := kRight; steps_ := 2 |}; {| turn_ := kLeft; steps_ := 3 |};
                     {| turn_ := kLeft; steps_ := 1 |} ] _)).
  repeat constructor; cbn [steps_]; unfold INT_MAX; lia.
Defined.

(** X21.  An instruction whose steps exceed the largest [int] is printed
    by [toString] as a text that [parseInstructions] refuses with
    [std::out_of_range], alone or as a token after a readable input. *)
Theorem toString_beyond_int_range (i : Instruction) (before after : string) :
  INT_MAX < steps_ i < 2 ^ 32 ->
  parseInstructions (Instruction_toString i) = Throw out_of_range /\
  (forall l, parseInstructions before = Ok l ->
     parseInstructions (before ++ "," ++ Instruction_toString i ++ "," ++ after)
     = Throw out_of_range).
Proof.
  intros Hr.
  assert (Hr' : 0 <= steps_ i < 2 ^ 32) by (unfold INT_MAX in Hr; lia).
  pose proof (RobotPrintFacts.parseToken_toString i Hr') as Hp.
  destruct (Z.leb_spec (steps_ i) INT_MAX); [lia|].
  assert (He : is_empty (Instruction_toString i) = false).
  { unfold Instruction_toString. destruct (turn_ i); reflexivity. }
  split.
  - rewrite RobotNavFacts.parseInstructions_tokens.
    rewrite <- (RobotNavFacts.append_empty_r (Instruction_toString i)).
    rewrite RobotPrintFacts.tokens_toString by exact Hr'.
    cbn [tokens strip_spaces split_commas glue parseTokens].
    rewrite RobotNavFacts.append_empty_r, He, Hp. reflexivity.
  - intros l Hl. rewrite RobotNavFacts.parseInstructions_tokens in *.
    change (before ++ "," ++ Instruction_toString i ++ "," ++ after)
      with (before ++ String "," (Instruction_toString i ++ String "," after)).
    rewrite RobotPrintFacts.tokens_app, RobotPrintFacts.parseTokens_app, Hl.
    cbn [bind]. rewrite RobotPrintFacts.tokens_toString by exact Hr'.
    change (tokens (String "," after)) with (EmptyString :: tokens after).
    cbn [glue parseTokens]. rewrite RobotNavFacts.append_empty_r, He, Hp. reflexivity.
Qed.

Lemma toString_beyond_int_range_witness :
  parseInstructions (Instruction_toString {| turn_ := kLeft; steps_ := 4294967295 |})
  = Throw out_of_range.
Proof.
  refine (proj1 (toString_beyond_int_range {| turn_ := kLeft; steps_ := 4294967295 |}
                   "" "" _)).
  cbn [steps_]. unfold INT_MAX. lia.
Defined.

(** X22.  [parseInstructions] on two inputs joined by a comma parses the
    first, then the second, and returns the instructions of both in order,
    or the first exception met; a space between them joins the two texts;
    a doubled, a leading and a trailing comma add nothing. *)
Theorem parseInstructions_concatenation (s1 s2 : string) :
  parseInstructions (s1 ++ "," ++ s2)
  = bind (parseInstructions s1) (fun a =>
      bind (parseInstructions s2) (fun b => Ok (a ++ b)%list)) /\
  parseInstructions (s1 ++ " " ++ s2) = parseInstructions (s1 ++ s2) /\
  parseInstructions (s1 ++ ",," ++ s2) = parseInstructions (s1 ++ "," ++ s2) /\
  parseInstructions ("," ++ s1) = parseInstructions s1 /\
  parseInstructions (s1 ++ ",") = parseInstructions s1.
Proof.
  rewrite !RobotNavFacts.parseInstructions_tokens.
  change (s1 ++ "," ++ s2) with (s1 ++ String "," s2).
  change (s1 ++ ",," ++ s2) with (s1 ++ String "," (String "," s2)).
  change (s1 ++ ",") with (s1 ++ String "," EmptyString).
  rewrite !RobotPrintFacts.tokens_app, !RobotPrintFacts.parseTokens_app.
  split; [reflexivity|]. split.
  - unfold tokens. rewrite !RobotPrintFacts.strip_spaces_app. reflexivity.
  - split; [|split].
    + change (tokens (String "," s2)) with (EmptyString :: tokens s2). reflexivity.
    + reflexivity.
    + cbn [tokens strip_spaces split_commas parseTokens is_empty bind].
      destruct (parseTokens (tokens s1)); cbn [bind];
        [now rewrite app_nil_r | reflexivity].
Qed.

(** X23.  A successful [parseInstructions] returns one instruction per
    non-empty token, each with steps in the unsigned 32-bit range. *)
Theorem parseInstructions_result (input : string) (l : list Instruction) :
  parseInstructions input = Ok l ->
  List.length l
    = List.length (filter (fun t => negb (is_empty t)) (tokens input)) /\
  Forall (fun i => 0 <= steps_ i < 2 ^ 32) l.
Proof.
  rewrite RobotNavFacts.parseInstructions_tokens.
  revert l. induction (tokens input) as [|t ts IH]; intros l Hok.
  - injection Hok as <-. split; [reflexivity | constructor].
  - cbn [parseTokens filter] in *. destruct (is_empty t) eqn:He; cbn [negb].
    + exact (IH l Hok).
    + destruct t as [|c rest]; [discriminate|].
      cbn [parseToken] in Hok. destruct (stoi rest) as [n|e] eqn:Hst; [|discriminate].
      cbn [bind] in Hok. destruct (parseTokens ts) as [more|e]; [|discriminate].
      cbn [bind] in Hok. injection Hok as <-.
      destruct (IH more eq_refl) as (Hlen & Hall). split.
      * cbn [List.length]. now rewrite Hlen.
      * constructor; [|exact Hall]. cbn [steps_]. unfold to_uint32.
        apply Z.mod_pos_bound. reflexivity.
Qed.

Lemma parseInstructions_result_witness :
  List.length [ {| turn_ := kRight; steps_ := 2 |}; {| turn_ := kLeft; steps_ := 4294967295 |} ]
  = List.length (filter (fun t => negb (is_empty t)) (tokens "R 2,, L-1,")).
Proof.
  refine (proj1 (parseInstructions_result "R 2,, L-1," _ _)). reflexivity.
Defined.
